(** * Batch-aware embedding cache of the OpenCLIP ViT-B/32 model plugin

    A shallow embedding of
    [feature_extraction_server/models/open_clip_vit_b32.py]:
    the [LRUCache] class (a [collections.OrderedDict] with a capacity) and
    the two cached batch operations [batched_text_embedding] and
    [batched_image_embedding] of [OpenClipVitB32].

    Python objects are mutable, so every method is a function from the
    object's state to an outcome and the state it leaves behind; an
    exception is an outcome, and the state reached when it was raised is
    kept (a caller that catches the exception sees the mutated object). *)

From stdpp Require Import base decidable option list strings.
From Stdlib Require Import ZArith Lia.

Open Scope Z_scope.

(** ** Outcomes and the state-and-exception monad *)

(** The exceptions the modelled code can raise.  [KeyError] comes from the
    ordered dictionary, [IndexError] from subscripting a list, and
    [UpstreamError] stands for whatever the tokenizer, the preprocessing or
    the network raises during inference. *)
Inductive exn : Type :=
  | KeyError
  | IndexError
  | UpstreamError.

#[global] Instance exn_eq_dec : EqDecision exn.
Proof. solve_decision. Defined.

Inductive result (A : Type) : Type :=
  | Ok (a : A)
  | Raise (e : exn).

Arguments Ok {A} a.
Arguments Raise {A} e.

Definition M (S A : Type) : Type := S -> result A * S.

Definition ret {S A} (a : A) : M S A := fun s => (Ok a, s).

Definition raise {S A} (e : exn) : M S A := fun s => (Raise e, s).

Definition bind {S A B} (m : M S A) (k : A -> M S B) : M S B :=
  fun s =>
    match m s with
    | (Ok a, s') => k a s'
    | (Raise e, s') => (Raise e, s')
    end.

(** [try: m except e: h] *)
Definition try_except {S A} (m : M S A) (e : exn) (h : M S A) : M S A :=
  fun s =>
    match m s with
    | (Ok a, s') => (Ok a, s')
    | (Raise e', s') => if decide (e' = e) then h s' else (Raise e', s')
    end.

Definition get_state {S} : M S S := fun s => (Ok s, s).

(** Subscripting a Python list with a non-negative index. *)
Definition subscript {S A} (l : list A) (i : nat) : M S A :=
  match l !! i with
  | Some a => ret a
  | None => raise IndexError
  end.

(** [l[i] = a] on a Python list with a non-negative index. *)
Definition assign_item {S A} (l : list A) (i : nat) (a : A) : M S (list A) :=
  if decide (i < length l)%nat then ret (<[i:=a]> l) else raise IndexError.

Notation "x <~ m ;; k" := (bind m (fun x => k))
  (at level 100, m at next level, right associativity, only parsing).
Notation "m ;;; k" := (bind m (fun _ => k))
  (at level 100, right associativity, only parsing).

(** ** [collections.OrderedDict] *)

(** An ordered dictionary is the list of its items, oldest insertion first.
    The operations are the four the cache uses.  [None] from [pop] and
    [popitem_first] is Python's [KeyError]. *)
Module OrderedDict.
Section ordered_dict.
Context {K V : Type} `{EqDecision K}.

Definition t : Type := list (K * V).

Definition keys (d : t) : list K := d.*1.

(** A dictionary holds each key once. *)
Definition wf (d : t) : Prop := NoDup (keys d).

(** [d.get(k)] *)
Fixpoint get (k : K) (d : t) : option V :=
  match d with
  | [] => None
  | (k', v) :: d' => if decide (k' = k) then Some v else get k d'
  end.

(** [d.pop(k)]: the value and the dictionary without the item. *)
Fixpoint pop (k : K) (d : t) : option (V * t) :=
  match d with
  | [] => None
  | (k', v) :: d' =>
      if decide (k' = k) then Some (v, d')
      else match pop k d' with
           | Some (w, d'') => Some (w, (k', v) :: d'')
           | None => None
           end
  end.

(** [d.popitem(last=False)]: the oldest item and the rest. *)
Definition popitem_first (d : t) : option ((K * V) * t) :=
  match d with
  | [] => None
  | kv :: d' => Some (kv, d')
  end.

(** [d[k] = v]: a present key keeps its place, a new key goes last. *)
Fixpoint setitem (k : K) (v : V) (d : t) : t :=
  match d with
  | [] => [(k, v)]
  | (k', v') :: d' =>
      if decide (k' = k) then (k', v) :: d' else (k', v') :: setitem k v d'
  end.

(** The dictionary a lookup of [k] with re-insertion leaves (what
    [cache_get] does to it): a present key is taken out and put back
    last, an absent key changes nothing. *)
Definition touch (k : K) (d : t) : t :=
  match pop k d with
  | Some (v, d') => setitem k v d'
  | None => d
  end.
End ordered_dict.
End OrderedDict.

(** ** [class LRUCache] *)

Section lru_cache.
Context {K V : Type} `{EqDecision K}.

Record LRUCache : Type := mkLRUCache {
  cache : list (K * V);
  maxsize : Z
}.

(** [LRUCache.__init__] *)
Definition LRUCache_init (maxsize : Z) : LRUCache :=
  {| cache := []; maxsize := maxsize |}.

Definition with_cache (d : list (K * V)) (self : LRUCache) : LRUCache :=
  {| cache := d; maxsize := maxsize self |}.

(** [self.cache.pop(key)] *)
Definition dict_pop (key : K) : M LRUCache V :=
  fun self =>
    match OrderedDict.pop key (cache self) with
    | Some (value, d) => (Ok value, with_cache d self)
    | None => (Raise KeyError, self)
    end.

(** [self.cache.popitem(last=False)] *)
Definition dict_popitem_first : M LRUCache (K * V) :=
  fun self =>
    match OrderedDict.popitem_first (cache self) with
    | Some (kv, d) => (Ok kv, with_cache d self)
    | None => (Raise KeyError, self)
    end.

(** [self.cache[key] = value] *)
Definition dict_setitem (key : K) (value : V) : M LRUCache unit :=
  fun self => (Ok tt, with_cache (OrderedDict.setitem key value (cache self)) self).

(** [LRUCache.cache_get].  The returned [None] is Python's [None]; the
    values this program stores are rows of floats, never [None], so
    [None] is returned exactly when the key is absent. *)
Definition cache_get (key : K) : M LRUCache (option V) :=
  try_except
    (value <~ dict_pop key ;;
     dict_setitem key value ;;;
     ret (Some value))
    KeyError
    (ret None).

(** [LRUCache.cache_set] *)
Definition cache_set (key : K) (value : V) : M LRUCache unit :=
  try_except
    (dict_pop key ;;; ret tt)
    KeyError
    (self <~ get_state ;;
     if decide (Z.of_nat (length (cache self)) >= maxsize self)
     then dict_popitem_first ;;; ret tt
     else ret tt) ;;;
  dict_setitem key value.

(** A cache operation, and the state a sequence of them leaves.  An
    operation that raises leaves the state it had reached. *)
Inductive cache_op : Type :=
  | OpGet (key : K)
  | OpSet (key : K) (value : V).

Definition exec_op (o : cache_op) (self : LRUCache) : LRUCache :=
  match o with
  | OpGet key => (cache_get key self).2
  | OpSet key value => (cache_set key value self).2
  end.

Definition exec_ops (os : list cache_op) (self : LRUCache) : LRUCache :=
  foldl (fun s o => exec_op o s) self os.

(** [cache_set] of each pair of a list in turn, with no other call in
    between. *)
Definition set_each (kvs : list (K * V)) (self : LRUCache) : LRUCache :=
  exec_ops ((fun kv => OpSet kv.1 kv.2) <$> kvs) self.
End lru_cache.

Arguments LRUCache : clear implicits.
Arguments cache_op : clear implicits.

(** ** [OpenClipVitB32]: the cached batch operations *)

(** The part of the model object one batch operation works on: its cache
    ([self.text_cache] or [self.image_cache]) and, to account for the calls
    made to the network, the list of the batches handed to inference so
    far, oldest first. *)
Record Endpoint (Item V : Type) : Type := mkEndpoint {
  lru : LRUCache string V;
  inference_log : list (list Item)
}.

Arguments mkEndpoint {Item V} lru inference_log.
Arguments lru {Item V} e.
Arguments inference_log {Item V} e.

Section batched_embedding.
(** An embedding is a list of floats, one row of [tensor.tolist()]; the
    code never looks inside a float. *)
Context {Item float : Type}.
Local Abbreviation embedding := (list float).

(** The cache key of an item. *)
Variable key : Item -> string.

(** Inference on a batch: tokenizing or preprocessing, the encoder,
    normalisation and [.cpu().tolist()].  It either raises or returns a
    list of rows. *)
Variable encode : list Item -> result (list embedding).

(** A method of the cache run on the endpoint's cache. *)
Definition on_cache {A} (m : M (LRUCache string embedding) A)
  : M (Endpoint Item embedding) A :=
  fun self =>
    let (r, c) := m (lru self) in
    (r, {| lru := c; inference_log := inference_log self |}).

Definition run_inference (items : list Item)
  : M (Endpoint Item embedding) (list embedding) :=
  fun self =>
    (encode items,
     {| lru := lru self; inference_log := inference_log self ++ [items] |}).

(** The first loop, [for idx, t in enumerate(items)], from position [idx]
    on: cached values go to their slot, the rest is collected. *)
Fixpoint split_loop (items : list Item) (idx : nat)
    (results : list (option embedding))
    (uncached_items : list Item) (uncached_indices : list nat)
  : M (LRUCache string embedding)
      (list (option embedding) * list Item * list nat) :=
  match items with
  | [] => ret (results, uncached_items, uncached_indices)
  | t :: rest =>
      cached_result <~ cache_get (key t) ;;
      match cached_result with
      | Some value =>
          results' <~ assign_item results idx (Some value) ;;
          split_loop rest (S idx) results' uncached_items uncached_indices
      | None =>
          split_loop rest (S idx) results
            (uncached_items ++ [t]) (uncached_indices ++ [idx])
      end
  end.

(** The second loop, [for i, idx in enumerate(uncached_indices)], from
    position [i] on. *)
Fixpoint fill_loop (items : list Item) (features_list : list embedding)
    (i : nat) (uncached_indices : list nat)
    (results : list (option embedding))
  : M (LRUCache string embedding) (list (option embedding)) :=
  match uncached_indices with
  | [] => ret results
  | idx :: rest =>
      embedding <~ subscript features_list i ;;
      item <~ subscript items idx ;;
      cache_set (key item) embedding ;;;
      results' <~ assign_item results idx (Some embedding) ;;
      fill_loop items features_list (S i) rest results'
  end.

(** The body shared by [batched_text_embedding] and
    [batched_image_embedding].  [results] starts as [[None] * len(items)];
    the returned list is the value under ["embedding"] of the returned
    dictionary, with [None] for a slot still holding Python's [None].
    [gc.collect()] changes nothing that is modelled. *)
Definition batched_embedding (items : list Item)
  : M (Endpoint Item embedding) (list (option embedding)) :=
  split <~ on_cache
    (split_loop items 0 (replicate (length items) None) [] []) ;;
  let '(results, uncached_items, uncached_indices) := split in
  match uncached_items with
  | [] => ret results
  | _ :: _ =>
      features_list <~ run_inference uncached_items ;;
      on_cache (fill_loop items features_list 0 uncached_indices results)
  end.

(** *** What the loops compute, as plain list functions *)

(** The items of a batch whose key the dictionary [d] does not hold, and
    their positions counted from [idx]. *)
Definition is_miss (d : list (string * embedding)) (x : Item) : bool :=
  bool_decide (OrderedDict.get (key x) d = None).

Definition misses (d : list (string * embedding)) (items : list Item)
  : list Item :=
  filter (fun x => is_miss d x = true) items.

Fixpoint miss_indices (d : list (string * embedding)) (idx : nat)
    (items : list Item) : list nat :=
  match items with
  | [] => []
  | x :: rest =>
      if is_miss d x then idx :: miss_indices d (S idx) rest
      else miss_indices d (S idx) rest
  end.

(** The dictionary after every key of the batch was looked up in turn. *)
Definition touch_all (items : list Item) (d : list (string * embedding))
  : list (string * embedding) :=
  foldl (fun d x => OrderedDict.touch (key x) d) d items.

(** The result list in closed form: each slot holds the stored value of
    its item when [d] has one, and else the next unused row of
    [features_list], rows being counted from [i]. *)
Fixpoint assemble (d : list (string * embedding))
    (features_list : list embedding) (i : nat) (items : list Item)
  : list (option embedding) :=
  match items with
  | [] => []
  | x :: rest =>
      match OrderedDict.get (key x) d with
      | Some value => Some value :: assemble d features_list i rest
      | None => features_list !! i :: assemble d features_list (S i) rest
      end
  end.

(** The endpoint after the first loop. *)
Definition refreshed (items : list Item) (w : Endpoint Item embedding)
  : Endpoint Item embedding :=
  {| lru := with_cache (touch_all items (cache (lru w))) (lru w);
     inference_log := inference_log w |}.

(** The value slot [i] is expected to hold: the stored one when the
    item's key was in [d], else the row of [features_list] at the item's
    rank among the misses. *)
Definition expected (d : list (string * embedding))
    (features_list : list embedding) (items : list Item) (i : nat)
  : option embedding :=
  match items !! i with
  | None => None
  | Some x =>
      match OrderedDict.get (key x) d with
      | Some value => Some value
      | None => features_list !! length (misses d (take i items))
      end
  end.

(** [out] answers the batch slot by slot: as many slots as items, each
    one holding the embedding expected at its position. *)
Definition slotwise (d : list (string * embedding))
    (features_list : list embedding) (items : list Item)
    (out : list (option embedding)) : Prop :=
  length out = length items /\
  forall i, (i < length items)%nat ->
    exists value,
      out !! i = Some (Some value) /\
      expected d features_list items i = Some value.
End batched_embedding.

(** [serialize_image] is the MD5 digest, in hexadecimal, of the pixel bytes;
    the images and the digest are parameters of the image operation. *)
Section open_clip_vit_b32.
Context {float Image : Type}.
Local Abbreviation embedding := (list float).

Variable encode_text : list string -> result (list embedding).
Variable serialize_image : Image -> string.
Variable encode_image : list Image -> result (list embedding).

(** [OpenClipVitB32.batched_text_embedding]: the key of a text is the
    text itself. *)
Definition batched_text_embedding (text : list string)
  : M (Endpoint string embedding) (list (option embedding)) :=
  batched_embedding (fun t => t) encode_text text.

(** [OpenClipVitB32.batched_image_embedding]: the key of an image is
    [self.serialize_image(img)], computed again for the write-back. *)
Definition batched_image_embedding (image : list Image)
  : M (Endpoint Image embedding) (list (option embedding)) :=
  batched_embedding serialize_image encode_image image.
End open_clip_vit_b32.

(** ** Notions used to describe the store *)

Section store_notions.
Context {K V : Type} `{EqDecision K}.

(** The dictionary without the item of [k], the others in their order. *)
Definition without (k : K) (d : list (K * V)) : list (K * V) :=
  filter (fun kv => kv.1 <> k) d.

(** The keys [ks] all sit in a tail of [d] that is at most [n] items long:
    they are among the [n] most recent entries. *)
Definition holds_recent (n : nat) (ks : list K) (d : list (K * V)) : Prop :=
  exists old recent,
    d = old ++ recent
    /\ (forall k, k ∈ ks -> k ∈ OrderedDict.keys recent)
    /\ (length recent <= n)%nat.

(** A store of capacity [m] in good order: each key once, and no more
    entries than the capacity. *)
Definition sound_store (m : Z) (self : LRUCache K V) : Prop :=
  OrderedDict.wf (cache self)
  /\ maxsize self = m
  /\ Z.of_nat (length (cache self)) <= m.
End store_notions.

(** ** [OpenClipVitB32]: the model object and zero-shot classification *)

(** The two caches of the model object, each with the log of its inference
    calls. *)
Record OpenClipVitB32 (Image V : Type) : Type := mkOpenClipVitB32 {
  image_side : Endpoint Image V;
  text_side : Endpoint string V
}.

Arguments mkOpenClipVitB32 {Image V} image_side text_side.
Arguments image_side {Image V} o.
Arguments text_side {Image V} o.

(** The caches as [_load_model] creates them: [LRUCache(maxsize=100)],
    twice. *)
Definition load_model {Image V : Type} : OpenClipVitB32 Image V :=
  {| image_side := {| lru := LRUCache_init 100; inference_log := [] |};
     text_side := {| lru := LRUCache_init 100; inference_log := [] |} |}.

(** The device the model runs on. *)
Inductive device : Type :=
  | cpu
  | cuda.

(** [is_cuda_available].  [available] is what [torch.cuda.is_available()]
    returns, and [probe] is what the trial operation
    [torch.zeros(1).to('cuda')] does when it is run: it returns, or raises
    some exception. *)
Definition is_cuda_available (available : bool) (probe : result unit) : bool :=
  if negb available then false
  else
    match probe with
    | Ok _ => true
    | Raise _ => false
    end.

(** The device [_load_model] selects; [no_cuda] is the [NO_CUDA] flag. *)
Definition select_device (available : bool) (probe : result unit)
    (no_cuda : bool) : device :=
  if is_cuda_available available probe then
    if no_cuda then cpu else cuda
  else cpu.

Section zero_shot.
Context {float Image Scores : Type}.
Local Abbreviation embedding := (list float).

Variable encode_text : list string -> result (list embedding).
Variable serialize_image : Image -> string.
Variable encode_image : list Image -> result (list embedding).

(** From the two lists of embeddings to the probabilities:
    [torch.tensor] of each, the matrix product, [softmax] and [tolist].
    It is given the lists as Python has them and may raise. *)
Variable softmax_scores :
  list (option embedding) -> list (option embedding) -> result Scores.

Definition on_image_side {A} (m : M (Endpoint Image embedding) A)
  : M (OpenClipVitB32 Image embedding) A :=
  fun self =>
    let (r, e) := m (image_side self) in
    (r, {| image_side := e; text_side := text_side self |}).

Definition on_text_side {A} (m : M (Endpoint string embedding) A)
  : M (OpenClipVitB32 Image embedding) A :=
  fun self =>
    let (r, e) := m (text_side self) in
    (r, {| image_side := image_side self; text_side := e |}).

Definition lift_result {S A} (r : result A) : M S A := fun s => (r, s).

(** [OpenClipVitB32.batched_zero_shot_image_classification]; the returned
    value is the one under ["probabilities"]. *)
Definition batched_zero_shot_image_classification
    (image : list Image) (classes : list string)
  : M (OpenClipVitB32 Image embedding) Scores :=
  image_embeddings <~
    on_image_side (batched_image_embedding serialize_image encode_image image) ;;
  class_embeddings <~
    on_text_side (batched_text_embedding encode_text classes) ;;
  lift_result (softmax_scores image_embeddings class_embeddings).

(** A call of one of the three batch operations, and the model object a
    sequence of calls leaves, whatever each call returned or raised. *)
Inductive request : Type :=
  | EmbedText (text : list string)
  | EmbedImage (image : list Image)
  | Classify (image : list Image) (classes : list string).

Definition serve (r : request) (self : OpenClipVitB32 Image embedding)
  : OpenClipVitB32 Image embedding :=
  match r with
  | EmbedText text =>
      (on_text_side (batched_text_embedding encode_text text) self).2
  | EmbedImage image =>
      (on_image_side
         (batched_image_embedding serialize_image encode_image image) self).2
  | Classify image classes =>
      (batched_zero_shot_image_classification image classes self).2
  end.

Definition serve_all (rs : list request) (self : OpenClipVitB32 Image embedding)
  : OpenClipVitB32 Image embedding :=
  foldl (fun s r => serve r s) self rs.
End zero_shot.

Arguments request : clear implicits.

(** ** [feature_extraction_server/utils.py] *)

Module Utils.
Import Stdlib.Strings.Ascii.

(** The argument of the [prepare_*] functions: one string, or a list of
    strings; [type(x) is str] tells them apart. *)
Inductive str_or_list : Type :=
  | OneStr (s : string)
  | StrList (l : list string).

(** [prepare_text]: the batch and [return_list]. *)
Definition prepare_text (text : str_or_list) : list string * bool :=
  match text with
  | OneStr s => ([s], false)
  | StrList l => (l, true)
  end.

(** [s.split(',', 1)]: at most one split, at the first comma.  The result
    has one element when [s] has no comma and two when it has one. *)
Fixpoint split_first_comma (s : string) : list string :=
  match s with
  | EmptyString => [EmptyString]
  | String c s' =>
      if Ascii.eqb c ","%char then [EmptyString; s']
      else match split_first_comma s' with
           | before :: after => String c before :: after
           | [] => []
           end
  end.

(** [if s.startswith(prefix): s = s.split(',', 1)[1]] *)
Definition strip_header (prefix s : string) : result string :=
  if String.prefix prefix s then
    match split_first_comma s !! 1%nat with
    | Some payload => Ok payload
    | None => Raise IndexError
    end
  else Ok s.

Definition rbind {A B} (r : result A) (k : A -> result B) : result B :=
  match r with
  | Ok a => k a
  | Raise e => Raise e
  end.

(** The loop of [prepare_images] and [prepare_audio]: each string is
    loaded in turn and appended; the first exception ends the loop. *)
Fixpoint load_loop {A} (load : string -> result A) (acc : list A)
    (strs : list string) : result (list A) :=
  match strs with
  | [] => Ok acc
  | s :: rest => rbind (load s) (fun a => load_loop load (acc ++ [a]) rest)
  end.

Section prepare.
Context {Bytes Image Audio : Type}.

(** [base64.b64decode], [Image.open] on the bytes, [image.mode],
    [image.convert(mode="RGB")], and [sf.read] on the bytes, which gives
    the samples with their rate. *)
Variable b64decode : string -> result Bytes.
Variable image_open : Bytes -> result Image.
Variable image_mode : Image -> string.
Variable convert_rgb : Image -> result Image.
Variable sf_read : Bytes -> result Audio.

(** The body of the loop of [prepare_images]. *)
Definition load_image (img_string : string) : result Image :=
  rbind (strip_header "data:image" img_string) (fun img_string =>
  rbind (b64decode img_string) (fun img_data =>
  rbind (image_open img_data) (fun image =>
  if decide (image_mode image <> "RGB") then convert_rgb image
  else Ok image))).

(** [prepare_images] *)
Definition prepare_images (images : str_or_list)
  : result (list Image * bool) :=
  let (image_strs, return_list) :=
    match images with
    | OneStr s => ([s], false)
    | StrList l => (l, true)
    end in
  rbind (load_loop load_image [] image_strs) (fun images =>
  Ok (images, return_list)).

(** The body of the loop of [prepare_audio]. *)
Definition load_audio (audio_string : string) : result Audio :=
  rbind (strip_header "data:audio" audio_string) (fun audio_string =>
  rbind (b64decode audio_string) (fun binary_data =>
  sf_read binary_data)).

(** [prepare_audio] *)
Definition prepare_audio (audio_data_url : str_or_list)
  : result (list Audio * bool) :=
  let (audio_data, return_list) :=
    match audio_data_url with
    | OneStr s => ([s], false)
    | StrList l => (l, true)
    end in
  rbind (load_loop load_audio [] audio_data) (fun audio =>
  Ok (audio, return_list)).
End prepare.

(** [range(0, stop, step)] for [stop >= 0], as the list of its values.
    [None] is the [ValueError] Python raises for a zero step; a negative
    step gives the empty range. *)
Definition range_from_zero (stop : nat) (step : Z) : option (list nat) :=
  if decide (step = 0) then None
  else if decide (step < 0) then Some []
  else Some ((fun j => j * Z.to_nat step)%nat
               <$> seq 0 ((stop + Z.to_nat step - 1) / Z.to_nat step)).

(** [iterable[lo:hi]] for [0 <= lo] and [0 <= hi]. *)
Definition slice {A} (iterable : list A) (lo hi : nat) : list A :=
  take (hi - lo) (drop lo iterable).

(** [list(batch(iterable, n))]: the chunks the generator yields, in
    order.  [None] is the [ValueError] of [range] with step 0. *)
Definition batch {A} (iterable : list A) (n : Z) : option (list (list A)) :=
  let l := length iterable in
  match range_from_zero l n with
  | None => None
  | Some ndxs =>
      Some ((fun ndx => slice iterable ndx (Nat.min (ndx + Z.to_nat n) l))
              <$> ndxs)
  end.
End Utils.

(** ** [feature_extraction_server/models/blip2.py] *)

Module Blip2.

Inductive captioning_exn : Type :=
  | ZeroDivisionError
  | ValueError
  | GenerationError.

Inductive outcome (A : Type) : Type :=
  | Returned (a : A)
  | Raised (e : captioning_exn).

Arguments Returned {A} a.
Arguments Raised {A} e.

Section captioning.
Context {Image Text Config : Type}.

(** From the images, the prompt and the generation arguments to the
    decoded predictions: the processor, [condgenmodel.generate] and
    [processor.batch_decode].  The arguments are [defaults] updated with
    [config]; [defaults] is empty, so they are [config].  [None] stands
    for an exception raised on the way. *)
Variable generate_captions : list Image -> Text -> Config -> option (list string).

(** [str.strip] *)
Variable strip : string -> string.

(** [conditional_image_captioning] *)
Definition conditional_image_captioning (image : list Image) (text : Text)
    (config : Config) : outcome (list (list string)) :=
  match generate_captions image text config with
  | None => Raised GenerationError
  | Some preds =>
      let preds := strip <$> preds in
      if decide (length image = 0%nat) then Raised ZeroDivisionError
      else
        match Utils.batch preds (Z.of_nat (length preds / length image)) with
        | None => Raised ValueError
        | Some groups => Returned groups
        end
  end.
End captioning.
End Blip2.

(** ** Concrete inputs

    Small instances on which the properties below are exercised: floats
    are integers, an image is a number and its digest a one-character
    string. *)
Module Fixtures.
Definition text_rows (text : list string) : result (list (list Z)) :=
  Ok ((fun t => [Z.of_nat (String.length t)]) <$> text).

Definition digest (img : nat) : string :=
  String (Ascii.ascii_of_nat img) EmptyString.

Definition image_rows (image : list nat) : result (list (list Z)) :=
  Ok ((fun img => [Z.of_nat img]) <$> image).

(** Inference that raises, returns two rows, or returns none, whatever
    the batch. *)
Definition failing {Item : Type} (_ : list Item) : result (list (list Z)) :=
  Raise UpstreamError.

Definition two_rows {Item : Type} (_ : list Item) : result (list (list Z)) :=
  Ok [[1]; [2]].

Definition no_rows {Item : Type} (_ : list Item) : result (list (list Z)) :=
  Ok [].

(** A text endpoint of capacity 2 holding ["a"], and an image endpoint of
    capacity 2 holding the digest of image 65. *)
Definition text_endpoint : Endpoint string (list Z) :=
  {| lru := {| cache := [("a", [1])]; maxsize := 2 |}; inference_log := [] |}.

Definition image_endpoint : Endpoint nat (list Z) :=
  {| lru := {| cache := [(digest 65, [65])]; maxsize := 2 |};
     inference_log := [] |}.

Definition fresh_endpoint {Item : Type} : Endpoint Item (list Z) :=
  {| lru := LRUCache_init 100; inference_log := [] |}.
End Fixtures.

(** Further small instances: a scorer that counts, decoders over strings
    (an image is its data with a mode), and a caption generator. *)
Module MoreFixtures.
Definition count_scores (image_embeddings class_embeddings : list (option (list Z)))
  : result nat :=
  Ok (length image_embeddings * length class_embeddings)%nat.

Definition decode_nonempty (s : string) : result string :=
  if decide (s = "") then Raise UpstreamError else Ok s.

Definition open_grey (img_data : string) : result (string * string) :=
  Ok (img_data, "L").

Definition mode_of (image : string * string) : string := image.2.

Definition to_rgb (image : string * string) : result (string * string) :=
  Ok (image.1, "RGB").

Definition read_length (binary_data : string) : result nat :=
  Ok (String.length binary_data).

Definition four_captions (image : list nat) (text : unit) (config : unit)
  : option (list string) :=
  Some ["a cat"; "a dog"; "a tree"; "a car"].

Definition keep (s : string) : string := s.

Definition embed_length (t : string) : list Z := [Z.of_nat (String.length t)].
End MoreFixtures.

(** ** Facts about the ordered dictionary *)

Module OrderedDictFacts.
Import OrderedDict.
Section facts.
Context {K V : Type} `{EqDecision K}.
Implicit Types (k : K) (v : V) (d : list (K * V)).

Lemma get_None k d : get k d = None <-> k ∉ keys d.
Proof.
  unfold keys. induction d as [|[k' v'] d IH]; simpl.
  - split; [intros _; apply not_elem_of_nil | done].
  - rewrite not_elem_of_cons. destruct (decide (k' = k)) as [->|Hne].
    + split; [done | intros [? _]; done].
    + rewrite IH. split; [intros ?; split; [congruence | done] | tauto].
Qed.

Lemma get_Some_elem k v d : get k d = Some v -> (k, v) ∈ d.
Proof.
  induction d as [|[k' v'] d IH]; simpl; [done|].
  destruct (decide (k' = k)) as [->|Hne].
  - intros [= ->]. apply list_elem_of_here.
  - intros Hg. apply list_elem_of_further, IH, Hg.
Qed.

Lemma get_app_absent k d1 d2 : k ∉ keys d1 -> get k (d1 ++ d2) = get k d2.
Proof.
  unfold keys. induction d1 as [|[k' v'] d1 IH]; simpl; [done|].
  rewrite not_elem_of_cons. intros [Hne Hnin].
  destruct (decide (k' = k)); [congruence | auto].
Qed.

Lemma get_app_present k v d1 d2 : get k d1 = Some v -> get k (d1 ++ d2) = Some v.
Proof.
  induction d1 as [|[k' v'] d1 IH]; simpl; [done|].
  destruct (decide (k' = k)); auto.
Qed.

Lemma pop_None k d : pop k d = None <-> get k d = None.
Proof.
  induction d as [|[k' v'] d IH]; simpl; [done|].
  destruct (decide (k' = k)); [done|].
  destruct (pop k d) as [[w d'']|]; rewrite <- IH; done.
Qed.

Lemma pop_absent k d : k ∉ keys d -> pop k d = None.
Proof. intros. by apply pop_None, get_None. Qed.

(** What a successful [pop] returns and leaves. *)
Lemma pop_Some k v d d' :
  pop k d = Some (v, d') ->
  get k d = Some v /\ (d ≡ₚ (k, v) :: d') /\ length d = S (length d').
Proof.
  revert d'. induction d as [|[k' v'] d IH]; simpl; intros d'; [done|].
  destruct (decide (k' = k)) as [->|Hne].
  - intros [= -> ->]. by repeat split.
  - destruct (pop k d) as [[w d'']|] eqn:Hp; [|done].
    intros [= -> <-]. destruct (IH _ eq_refl) as (Hg & Hperm & Hlen).
    split; [done|]. split; [|simpl; lia].
    rewrite Hperm. apply Permutation_swap.
Qed.

Lemma pop_Some_wf k v d d' :
  wf d -> pop k d = Some (v, d') ->
  wf d' /\ (k ∉ keys d') /\ forall k', k' <> k -> get k' d' = get k' d.
Proof.
  unfold wf, keys. revert d'.
  induction d as [|[k1 v1] d IH]; simpl; intros d' Hwf; [done|].
  apply NoDup_cons in Hwf as [Hnin Hwf].
  destruct (decide (k1 = k)) as [->|Hne].
  - intros [= -> ->]. repeat split; [done..|].
    intros k' Hk'. destruct (decide (k = k')); [congruence | done].
  - destruct (pop k d) as [[w d'']|] eqn:Hp; [|done].
    intros [= -> <-]. destruct (IH _ Hwf eq_refl) as (Hwf' & Hnin' & Hget).
    assert (Hperm : d.*1 ≡ₚ k :: d''.*1).
    { apply pop_Some in Hp as (_ & Hperm & _).
      by rewrite Hperm. }
    simpl. repeat split.
    + apply NoDup_cons. split; [|done].
      intros Hin. apply Hnin. rewrite Hperm. by apply list_elem_of_further.
    + rewrite not_elem_of_cons. split; [congruence | done].
    + intros k' Hk'. destruct (decide (k1 = k')); [done | auto].
Qed.

Lemma setitem_absent k v d : k ∉ keys d -> setitem k v d = d ++ [(k, v)].
Proof.
  unfold keys. induction d as [|[k' v'] d IH]; simpl; [done|].
  rewrite not_elem_of_cons. intros [Hne Hnin].
  destruct (decide (k' = k)); [congruence|]. by rewrite IH.
Qed.

Lemma length_setitem_absent k v d :
  k ∉ keys d -> length (setitem k v d) = S (length d).
Proof. intros Hk. rewrite setitem_absent, length_app by done. simpl. lia. Qed.

Lemma get_snoc_eq k v d : k ∉ keys d -> get k (d ++ [(k, v)]) = Some v.
Proof.
  intros Hk. rewrite get_app_absent by done. simpl.
  by destruct (decide (k = k)).
Qed.

Lemma get_snoc_ne k k' v d : k' <> k -> get k' (d ++ [(k, v)]) = get k' d.
Proof.
  intros Hne. induction d as [|[k1 v1] d IH]; simpl.
  - destruct (decide (k = k')); [congruence | done].
  - destruct (decide (k1 = k')); done.
Qed.

Lemma wf_snoc k v d : wf d -> k ∉ keys d -> wf (d ++ [(k, v)]).
Proof.
  unfold wf, keys. intros Hwf Hk. rewrite fmap_app. simpl.
  apply NoDup_app. split; [done|]. split.
  - intros x Hx Hx'. apply list_elem_of_singleton in Hx'. by subst.
  - apply NoDup_singleton.
Qed.

Lemma wf_pop_absent k v d d' : wf d -> pop k d = Some (v, d') -> k ∉ keys d'.
Proof. intros Hwf Hp. by destruct (pop_Some_wf _ _ _ _ Hwf Hp) as (_ & ? & _). Qed.

Lemma touch_wf k d : wf d -> wf (touch k d).
Proof.
  intros Hwf. unfold touch. destruct (pop k d) as [[v d']|] eqn:Hp; [|done].
  destruct (pop_Some_wf _ _ _ _ Hwf Hp) as (Hwf' & Hnin & _).
  rewrite setitem_absent by done. by apply wf_snoc.
Qed.

Lemma touch_get k k' d : wf d -> get k' (touch k d) = get k' d.
Proof.
  intros Hwf. unfold touch. destruct (pop k d) as [[v d']|] eqn:Hp; [|done].
  destruct (pop_Some_wf _ _ _ _ Hwf Hp) as (Hwf' & Hnin & Hget).
  apply pop_Some in Hp as (Hg & _ & _).
  rewrite setitem_absent by done.
  destruct (decide (k' = k)) as [->|Hne].
  - by rewrite get_snoc_eq.
  - rewrite get_snoc_ne by done. auto.
Qed.
End facts.
End OrderedDictFacts.

(** ** The cache methods in closed form *)

Section lru_facts.
Import OrderedDict OrderedDictFacts.
Context {K V : Type} `{EqDecision K}.
Implicit Types (key : K) (value : V) (self : LRUCache K V).

Lemma cache_get_eq key self :
  cache_get key self =
  match pop key (cache self) with
  | Some (value, d) => (Ok (Some value), with_cache (setitem key value d) self)
  | None => (Ok None, self)
  end.
Proof.
  unfold cache_get, try_except, bind, dict_pop, dict_setitem, ret.
  by destruct (pop key (cache self)) as [[value d]|].
Qed.

Lemma cache_set_eq key value self :
  cache_set key value self =
  match pop key (cache self) with
  | Some (_, d) => (Ok tt, with_cache (setitem key value d) self)
  | None =>
      if decide (Z.of_nat (length (cache self)) >= maxsize self) then
        match cache self with
        | [] => (Raise KeyError, self)
        | _ :: d => (Ok tt, with_cache (setitem key value d) self)
        end
      else (Ok tt, with_cache (setitem key value (cache self)) self)
  end.
Proof.
  unfold cache_set, try_except, bind, dict_pop, dict_popitem_first,
    dict_setitem, get_state, ret.
  destruct (pop key (cache self)) as [[old d]|]; simpl; [done|].
  destruct (decide (Z.of_nat (length (cache self)) >= maxsize self)); [|done].
  by destruct (cache self) as [|kv d].
Qed.

(** The state [cache_get] leaves is the touched dictionary. *)
Lemma cache_get_touch key self :
  cache_get key self =
  (Ok (get key (cache self)), with_cache (touch key (cache self)) self).
Proof.
  rewrite cache_get_eq. unfold touch.
  destruct (pop key (cache self)) as [[value d]|] eqn:Hp.
  - apply pop_Some in Hp as (-> & _ & _). done.
  - apply pop_None in Hp as ->. by destruct self.
Qed.

Lemma maxsize_exec_op o self : maxsize (exec_op o self) = maxsize self.
Proof.
  destruct o as [key|key value]; simpl.
  - rewrite cache_get_eq. by destruct (pop key (cache self)) as [[v d]|].
  - rewrite cache_set_eq. destruct (pop key (cache self)) as [[v d]|]; [done|].
    destruct (decide _); [|done]. by destruct (cache self).
Qed.

Lemma exec_ops_snoc os o self :
  exec_ops (os ++ [o]) self = exec_op o (exec_ops os self).
Proof. unfold exec_ops. by rewrite foldl_app. Qed.

Lemma maxsize_exec_ops os self : maxsize (exec_ops os self) = maxsize self.
Proof.
  induction os as [|o os IH] using rev_ind; [done|].
  by rewrite exec_ops_snoc, maxsize_exec_op.
Qed.

Lemma length_setitem_le key value (d : list (K * V)) :
  (length (setitem key value d) <= S (length d))%nat.
Proof.
  induction d as [|[k' v'] d IH]; simpl; [lia|].
  destruct (decide (k' = key)); simpl; lia.
Qed.

(** One operation keeps the store within its capacity. *)
Lemma exec_op_bounded o self :
  Z.of_nat (length (cache self)) <= maxsize self ->
  Z.of_nat (length (cache (exec_op o self))) <= maxsize self.
Proof.
  intros Hle. destruct o as [key|key value]; simpl.
  - rewrite cache_get_eq.
    destruct (pop key (cache self)) as [[v d]|] eqn:Hp; [|done].
    simpl. pose proof (pop_Some _ _ _ _ Hp) as (_ & _ & Hlen).
    pose proof (length_setitem_le key v d). lia.
  - rewrite cache_set_eq.
    destruct (pop key (cache self)) as [[v d]|] eqn:Hp.
    + simpl. pose proof (pop_Some _ _ _ _ Hp) as (_ & _ & Hlen).
      pose proof (length_setitem_le key value d). lia.
    + destruct (decide _) as [Hfull|Hroom].
      * destruct (cache self) as [|kv d] eqn:Hc; simpl.
        -- rewrite Hc. simpl. lia.
        -- pose proof (length_setitem_le key value d). simpl in Hle. lia.
      * simpl. pose proof (length_setitem_le key value (cache self)). lia.
Qed.

Lemma exec_ops_bounded os self :
  Z.of_nat (length (cache self)) <= maxsize self ->
  Z.of_nat (length (cache (exec_ops os self))) <= maxsize self.
Proof.
  intros Hle. induction os as [|o os IH] using rev_ind; [done|].
  rewrite exec_ops_snoc. rewrite <- (maxsize_exec_ops os self).
  apply exec_op_bounded. by rewrite maxsize_exec_ops.
Qed.

(** [cache_set] of a key the store does not hold, with room left. *)
Lemma cache_set_fresh_room key value self :
  key ∉ keys (cache self) ->
  Z.of_nat (length (cache self)) < maxsize self ->
  cache_set key value self =
  (Ok tt, with_cache (cache self ++ [(key, value)]) self).
Proof.
  intros Hk Hlt. rewrite cache_set_eq, pop_absent by done.
  destruct (decide _); [lia|]. by rewrite setitem_absent.
Qed.

(** [cache_set] of a key the store does not hold, the store being full. *)
Lemma cache_set_fresh_full key value kv d self :
  cache self = kv :: d ->
  key ∉ keys (kv :: d) ->
  Z.of_nat (length (cache self)) >= maxsize self ->
  cache_set key value self = (Ok tt, with_cache (d ++ [(key, value)]) self).
Proof.
  intros Hc Hk Hfull. rewrite cache_set_eq, pop_absent by (by rewrite Hc).
  destruct (decide _); [|lia]. rewrite Hc.
  rewrite setitem_absent; [done|].
  unfold keys in *. simpl in Hk. by apply not_elem_of_cons in Hk as [_ ?].
Qed.

Lemma set_each_fresh kvs self :
  NoDup (keys (cache self ++ kvs)) ->
  Z.of_nat (length (cache self ++ kvs)) <= maxsize self ->
  set_each kvs self = with_cache (cache self ++ kvs) self.
Proof.
  unfold set_each, exec_ops. revert self.
  induction kvs as [|[k v] kvs IH]; intros self Hnd Hlen; simpl.
  - rewrite app_nil_r. by destruct self.
  - assert (Hk : k ∉ keys (cache self)).
    { unfold keys in *. rewrite fmap_app in Hnd.
      apply NoDup_app in Hnd as (_ & Hdisj & _).
      intros Hin. apply (Hdisj _ Hin). simpl. apply list_elem_of_here. }
    rewrite length_app in Hlen. simpl in Hlen.
    rewrite cache_set_fresh_room by (done || lia). simpl.
    rewrite IH; simpl.
    + by rewrite <- app_assoc.
    + by rewrite <- app_assoc.
    + rewrite !length_app. simpl. lia.
Qed.

(** A store built with a capacity below one never holds anything. *)
Lemma exec_ops_no_room m os :
  m <= 0 -> cache (exec_ops os (LRUCache_init (K:=K) (V:=V) m)) = [].
Proof.
  intros Hm. induction os as [|o os IH] using rev_ind; [done|].
  rewrite exec_ops_snoc.
  pose proof (maxsize_exec_ops os (LRUCache_init (K:=K) (V:=V) m)) as Hmax.
  destruct o as [key|key value]; simpl.
  - rewrite cache_get_eq, IH. done.
  - rewrite cache_set_eq, IH. simpl.
    destruct (decide _) as [|Hn]; [done|]. simpl in *. lia.
Qed.

Lemma cache_set_total key value self :
  1 <= maxsize self -> exists self', cache_set key value self = (Ok tt, self').
Proof.
  intros Hm. rewrite cache_set_eq.
  destruct (pop key (cache self)) as [[v d]|]; [eauto|].
  destruct (decide _) as [Hfull|]; [|eauto].
  destruct (cache self); [simpl in *; lia | eauto].
Qed.
End lru_facts.

(** ** Running the monad *)

Section monad_facts.
Context {S A B : Type}.

Lemma bind_Ok (m : M S A) (k : A -> M S B) s a s' :
  m s = (Ok a, s') -> bind m k s = k a s'.
Proof. unfold bind. by intros ->. Qed.

Lemma bind_Raise (m : M S A) (k : A -> M S B) s e s' :
  m s = (Raise e, s') -> bind m k s = (Raise e, s').
Proof. unfold bind. by intros ->. Qed.

Lemma subscript_Some (l : list A) i a (s : S) :
  l !! i = Some a -> subscript l i s = (Ok a, s).
Proof. unfold subscript. by intros ->. Qed.

Lemma subscript_None (l : list A) i (s : S) :
  l !! i = None -> subscript l i s = (Raise IndexError, s).
Proof. unfold subscript. by intros ->. Qed.

Lemma assign_item_middle (pre post : list A) old a (s : S) :
  assign_item (pre ++ old :: post) (length pre) a s =
  (Ok (pre ++ a :: post), s).
Proof.
  unfold assign_item. rewrite length_app. simpl.
  destruct (decide _); [|lia].
  rewrite insert_app_r_alt, Nat.sub_diag by lia. done.
Qed.
End monad_facts.

(** ** The two loops *)

Section batched_facts.
Import OrderedDict OrderedDictFacts.
Context {Item float : Type}.
Local Abbreviation embedding := (list float).
Variable key : Item -> string.
Variable encode : list Item -> result (list embedding).
Implicit Types (d : list (string * embedding)) (items rest : list Item)
  (self : LRUCache string embedding) (fl : list embedding).

Lemma misses_cons_hit d x rest value :
  get (key x) d = Some value -> misses key d (x :: rest) = misses key d rest.
Proof.
  intros Hg. unfold misses. rewrite filter_cons_False; [done|].
  unfold is_miss. rewrite Hg. by rewrite bool_decide_eq_false_2.
Qed.

Lemma misses_cons_miss d x rest :
  get (key x) d = None -> misses key d (x :: rest) = x :: misses key d rest.
Proof.
  intros Hg. unfold misses. rewrite filter_cons_True; [done|].
  unfold is_miss. by rewrite bool_decide_eq_true_2.
Qed.

Lemma miss_indices_cons_hit d x rest idx value :
  get (key x) d = Some value ->
  miss_indices key d idx (x :: rest) = miss_indices key d (Datatypes.S idx) rest.
Proof.
  intros Hg. simpl. unfold is_miss. rewrite Hg.
  by rewrite bool_decide_eq_false_2.
Qed.

Lemma miss_indices_cons_miss d x rest idx :
  get (key x) d = None ->
  miss_indices key d idx (x :: rest) =
  idx :: miss_indices key d (Datatypes.S idx) rest.
Proof.
  intros Hg. simpl. unfold is_miss. by rewrite bool_decide_eq_true_2.
Qed.

(** Looking keys up does not change what the dictionary maps them to. *)
Lemma is_miss_ext d d' x :
  (forall k, get k d' = get k d) -> is_miss key d' x = is_miss key d x.
Proof. intros Hext. unfold is_miss. by rewrite Hext. Qed.

Lemma misses_ext d d' items :
  (forall k, get k d' = get k d) -> misses key d' items = misses key d items.
Proof.
  intros Hext. induction items as [|x rest IH]; [done|].
  destruct (get (key x) d) as [value|] eqn:Hg.
  - rewrite (misses_cons_hit d x rest value), (misses_cons_hit d' x rest value);
      [done | by rewrite Hext | done].
  - rewrite (misses_cons_miss d), (misses_cons_miss d');
      [by rewrite IH | by rewrite Hext | done].
Qed.

Lemma miss_indices_ext d d' items idx :
  (forall k, get k d' = get k d) ->
  miss_indices key d' idx items = miss_indices key d idx items.
Proof.
  intros Hext. revert idx. induction items as [|x rest IH]; intros idx; [done|].
  simpl. rewrite (is_miss_ext d d') by done. by rewrite !IH.
Qed.

Lemma touch_all_wf items d : wf d -> wf (touch_all key items d).
Proof.
  unfold touch_all. revert d. induction items as [|x rest IH]; intros d Hwf; [done|].
  simpl. apply IH. by apply touch_wf.
Qed.

Lemma touch_all_get items d k : wf d -> get k (touch_all key items d) = get k d.
Proof.
  unfold touch_all. revert d. induction items as [|x rest IH]; intros d Hwf; [done|].
  simpl. rewrite IH by (by apply touch_wf). by apply touch_get.
Qed.

Lemma touch_perm (k : string) d : wf d -> touch k d ≡ₚ d.
Proof.
  intros Hwf. unfold touch. destruct (pop k d) as [[v d']|] eqn:Hp; [|done].
  pose proof (wf_pop_absent _ _ _ _ Hwf Hp) as Hnin.
  pose proof (pop_Some _ _ _ _ Hp) as (_ & Hperm & _).
  rewrite setitem_absent, Hperm by done.
  symmetry. apply Permutation_cons_append.
Qed.

Lemma touch_all_perm items d : wf d -> touch_all key items d ≡ₚ d.
Proof.
  unfold touch_all. revert d. induction items as [|x rest IH]; intros d Hwf; [done|].
  simpl. rewrite IH by (by apply touch_wf). by apply touch_perm.
Qed.

(** The first loop: slots of hits receive the stored value, the slots of
    misses keep [None]; the misses and their positions are collected in
    input order; the dictionary has every key of the batch touched. *)
Lemma split_loop_spec items :
  forall (pre : list (option embedding)) un ui self,
    wf (cache self) ->
    split_loop key items (length pre)
      (pre ++ replicate (length items) None) un ui self =
    (Ok (pre ++ ((fun x => get (key x) (cache self)) <$> items),
         un ++ misses key (cache self) items,
         ui ++ miss_indices key (cache self) (length pre) items),
     with_cache (touch_all key items (cache self)) self).
Proof.
  induction items as [|x rest IH]; intros pre un ui self Hwf.
  - simpl. unfold ret, misses. rewrite !app_nil_r. by destruct self.
  - cbn [split_loop length replicate fmap list_fmap].
    erewrite bind_Ok by apply cache_get_touch.
    assert (Hext : forall k, get k (touch (key x) (cache self)) = get k (cache self))
      by (intros; by apply touch_get).
    assert (Hlen : length (pre ++ [get (key x) (cache self)]) = Datatypes.S (length pre))
      by (rewrite length_app; simpl; lia).
    destruct (get (key x) (cache self)) as [value|] eqn:Hg.
    + erewrite bind_Ok by apply assign_item_middle.
      rewrite (misses_cons_hit _ _ _ _ Hg).
      rewrite (miss_indices_cons_hit _ _ _ _ _ Hg).
      rewrite (cons_middle (Some value) pre), !app_assoc, <- Hlen.
      rewrite IH by (by apply touch_wf).
      rewrite (misses_ext _ _ _ Hext), (miss_indices_ext _ _ _ _ Hext).
      cbn [cache with_cache maxsize].
      erewrite (list_fmap_ext _ (fun x0 => get (key x0) (cache self)));
        [by rewrite <- !app_assoc|].
      intros; simpl. by rewrite Hext.
    + rewrite (misses_cons_miss _ _ _ Hg).
      rewrite (miss_indices_cons_miss _ _ _ _ Hg).
      rewrite (cons_middle None pre), !app_assoc, <- Hlen.
      rewrite IH by (by apply touch_wf).
      rewrite (misses_ext _ _ _ Hext), (miss_indices_ext _ _ _ _ Hext).
      cbn [cache with_cache maxsize].
      erewrite (list_fmap_ext _ (fun x0 => get (key x0) (cache self)));
        [by rewrite <- !app_assoc|].
      intros; simpl. by rewrite Hext.
Qed.
(** The second loop, given enough rows and a cache that can hold
    something: every miss slot receives its row. *)
Lemma fill_loop_spec d fl rest :
  forall (processed : list Item) (pre : list (option embedding)) i self,
    length pre = length processed ->
    (i + length (misses key d rest) <= length fl)%nat ->
    1 <= maxsize self ->
    exists self',
      fill_loop key (processed ++ rest) fl i
        (miss_indices key d (length pre) rest)
        (pre ++ ((fun x => get (key x) d) <$> rest)) self =
      (Ok (pre ++ assemble key d fl i rest), self')
      /\ maxsize self' = maxsize self.
Proof.
  induction rest as [|x rest IH]; intros processed pre i self Hpre Hrows Hmax.
  - simpl. eauto.
  - assert (Hlen : length (pre ++ [get (key x) d]) = length (processed ++ [x]))
      by (rewrite !length_app; simpl; lia).
    assert (Hlen' : length (pre ++ [get (key x) d]) = Datatypes.S (length pre))
      by (rewrite length_app; simpl; lia).
    destruct (get (key x) d) as [value|] eqn:Hg.
    + rewrite (miss_indices_cons_hit _ _ _ _ _ Hg).
      rewrite (misses_cons_hit _ _ _ _ Hg) in Hrows.
      cbn [fmap list_fmap assemble]. rewrite Hg.
      rewrite (cons_middle x processed), (cons_middle (Some value) pre).
      rewrite (cons_middle (Some value) pre (assemble _ _ _ _ _)).
      rewrite !app_assoc, <- Hlen'.
      by apply IH.
    + rewrite (miss_indices_cons_miss _ _ _ _ Hg).
      rewrite (misses_cons_miss _ _ _ Hg) in Hrows. simpl in Hrows.
      destruct (fl !! i) as [row|] eqn:Hrow;
        [|apply lookup_ge_None in Hrow; lia].
      destruct (cache_set_total (key x) row self Hmax) as [self1 Hset].
      assert (Hmax1 : maxsize self1 = maxsize self).
      { change self1 with (Ok tt, self1).2. rewrite <- Hset.
        apply (maxsize_exec_op (OpSet (key x) row)). }
      destruct (IH (processed ++ [x]) (pre ++ [Some row]) (Datatypes.S i) self1)
        as (self' & Hrun & Hmax'); [rewrite !length_app; simpl; lia | lia | lia |].
      exists self'. split; [|lia].
      cbn [fill_loop fmap list_fmap assemble]. rewrite Hg, Hrow.
      erewrite bind_Ok by (by apply subscript_Some).
      erewrite bind_Ok
        by (apply subscript_Some; rewrite Hpre; apply list_lookup_middle; done).
      erewrite bind_Ok by apply Hset.
      erewrite bind_Ok by apply assign_item_middle.
      rewrite (cons_middle x processed), (cons_middle (Some row) pre).
      rewrite (cons_middle (Some row) pre (assemble _ _ _ _ _)).
      rewrite !app_assoc. rewrite length_app in Hrun. simpl in Hrun.
      by rewrite Nat.add_1_r in Hrun.
Qed.

(** The second loop, given fewer rows than misses: it raises. *)
Lemma fill_loop_short d fl rest :
  forall (processed : list Item) (pre : list (option embedding)) i self,
    length pre = length processed ->
    (i <= length fl < i + length (misses key d rest))%nat ->
    exists e self',
      fill_loop key (processed ++ rest) fl i
        (miss_indices key d (length pre) rest)
        (pre ++ ((fun x => get (key x) d) <$> rest)) self =
      (Raise e, self')
      /\ (1 <= maxsize self -> e = IndexError).
Proof.
  induction rest as [|x rest IH]; intros processed pre i self Hpre Hrows.
  - simpl in Hrows. lia.
  - assert (Hlen' : length (pre ++ [get (key x) d]) = Datatypes.S (length pre))
      by (rewrite length_app; simpl; lia).
    destruct (get (key x) d) as [value|] eqn:Hg.
    + rewrite (miss_indices_cons_hit _ _ _ _ _ Hg).
      rewrite (misses_cons_hit _ _ _ _ Hg) in Hrows.
      cbn [fmap list_fmap]. rewrite Hg.
      rewrite (cons_middle x processed), (cons_middle (Some value) pre).
      rewrite !app_assoc, <- Hlen'.
      apply IH; [rewrite !length_app; simpl; lia | done].
    + rewrite (miss_indices_cons_miss _ _ _ _ Hg).
      rewrite (misses_cons_miss _ _ _ Hg) in Hrows. simpl in Hrows.
      cbn [fill_loop fmap list_fmap]. rewrite Hg.
      destruct (fl !! i) as [row|] eqn:Hrow.
      * erewrite bind_Ok by (by apply subscript_Some).
        erewrite bind_Ok
          by (apply subscript_Some; rewrite Hpre; apply list_lookup_middle; done).
        apply lookup_lt_Some in Hrow.
        destruct (cache_set (key x) row self) as [[[]|e] self1] eqn:Hset.
        -- erewrite bind_Ok by apply Hset.
           erewrite bind_Ok by apply assign_item_middle.
           assert (Hmax1 : maxsize self1 = maxsize self).
           { change self1 with (Ok tt, self1).2. rewrite <- Hset.
             apply (maxsize_exec_op (OpSet (key x) row)). }
           destruct (IH (processed ++ [x]) (pre ++ [Some row]) (Datatypes.S i) self1)
             as (e & self' & Hrun & He);
             [rewrite !length_app; simpl; lia | lia |].
           exists e, self'. split; [|by rewrite <- Hmax1].
           rewrite (cons_middle x processed), (cons_middle (Some row) pre).
           rewrite !app_assoc. rewrite length_app in Hrun. simpl in Hrun.
           by rewrite Nat.add_1_r in Hrun.
        -- erewrite bind_Raise by apply Hset.
           exists e, self1. split; [done|]. intros Hmax.
           destruct (cache_set_total (key x) row self Hmax) as [? Hok].
           congruence.
      * erewrite bind_Raise by (by apply subscript_None). eauto.
Qed.

Lemma length_assemble d fl i items :
  length (assemble key d fl i items) = length items.
Proof.
  revert i. induction items as [|x rest IH]; intros i; simpl; [done|].
  destruct (get (key x) d); simpl; by rewrite IH.
Qed.

(** Slot [p] of the closed form: the stored value of item [p], or the
    row at the rank of item [p] among the misses. *)
Lemma lookup_assemble d fl i items p x :
  items !! p = Some x ->
  assemble key d fl i items !! p =
  Some match get (key x) d with
       | Some value => Some value
       | None => fl !! (i + length (misses key d (take p items)))%nat
       end.
Proof.
  revert i p. induction items as [|y rest IH]; intros i p Hp; [done|].
  destruct p as [|p]; simpl in Hp.
  - injection Hp as ->. simpl.
    destruct (get (key x) d); simpl; [done|]. by rewrite Nat.add_0_r.
  - cbn [assemble take]. destruct (get (key y) d) as [value|] eqn:Hg.
    + rewrite (misses_cons_hit _ _ _ _ Hg). simpl. by apply IH.
    + rewrite (misses_cons_miss _ _ _ Hg). simpl.
      rewrite (IH (Datatypes.S i) p Hp).
      by replace (i + Datatypes.S (length (misses key d (take p rest))))%nat
        with (Datatypes.S i + length (misses key d (take p rest)))%nat by lia.
Qed.

Lemma assemble_no_miss d fl i items :
  misses key d items = [] ->
  assemble key d fl i items = (fun x => get (key x) d) <$> items.
Proof.
  induction items as [|x rest IH]; [done|]. intros Hm.
  simpl. destruct (get (key x) d) as [value|] eqn:Hg.
  - rewrite (misses_cons_hit _ _ _ _ Hg) in Hm. by rewrite IH.
  - by rewrite (misses_cons_miss _ _ _ Hg) in Hm.
Qed.

Lemma misses_take_le d items p :
  (length (misses key d (take p items)) <= length (misses key d items))%nat.
Proof.
  rewrite <- (take_drop p items) at 2. unfold misses.
  rewrite filter_app, length_app. lia.
Qed.

Lemma misses_take_lt d items p x :
  items !! p = Some x -> get (key x) d = None ->
  (length (misses key d (take p items)) < length (misses key d items))%nat.
Proof.
  intros Hp Hg. rewrite <- (take_drop_middle items p x Hp) at 2.
  unfold misses at 2. rewrite filter_app, length_app.
  fold (misses key d (take p items)). fold (misses key d (x :: drop (Datatypes.S p) items)).
  rewrite (misses_cons_miss _ _ _ Hg). simpl. lia.
Qed.
(** *** The whole operation, case by case *)

Implicit Types (w : Endpoint Item embedding).

Lemma batched_split items w :
  wf (cache (lru w)) ->
  on_cache (split_loop key items 0 (replicate (length items) None) [] []) w =
  (Ok ((fun x => get (key x) (cache (lru w))) <$> items,
       misses key (cache (lru w)) items,
       miss_indices key (cache (lru w)) 0 items),
   refreshed key items w).
Proof.
  intros Hwf. unfold on_cache.
  pose proof (split_loop_spec items [] [] [] (lru w) Hwf) as Hsplit.
  simpl in Hsplit. by rewrite Hsplit.
Qed.

(** No miss: inference is not run. *)
Lemma batched_all_hits items w :
  wf (cache (lru w)) ->
  misses key (cache (lru w)) items = [] ->
  batched_embedding key encode items w =
  (Ok ((fun x => get (key x) (cache (lru w))) <$> items), refreshed key items w).
Proof.
  intros Hwf Hm. unfold batched_embedding.
  erewrite bind_Ok by (by apply batched_split). by rewrite Hm.
Qed.

(** Some miss and inference raises. *)
Lemma batched_upstream_failure items w e :
  wf (cache (lru w)) ->
  misses key (cache (lru w)) items <> [] ->
  encode (misses key (cache (lru w)) items) = Raise e ->
  batched_embedding key encode items w =
  (Raise e,
   {| lru := lru (refreshed key items w);
      inference_log := inference_log w ++ [misses key (cache (lru w)) items] |}).
Proof.
  intros Hwf Hm He. unfold batched_embedding.
  erewrite bind_Ok by (by apply batched_split).
  destruct (misses key (cache (lru w)) items) as [|x ms] eqn:Hms; [done|].
  erewrite bind_Raise; [done|]. unfold run_inference. by rewrite He.
Qed.

(** Some miss, and inference returns at least as many rows as misses. *)
Lemma batched_computed items w fl :
  wf (cache (lru w)) ->
  1 <= maxsize (lru w) ->
  misses key (cache (lru w)) items <> [] ->
  encode (misses key (cache (lru w)) items) = Ok fl ->
  (length (misses key (cache (lru w)) items) <= length fl)%nat ->
  exists c',
    batched_embedding key encode items w =
    (Ok (assemble key (cache (lru w)) fl 0 items),
     {| lru := c';
        inference_log := inference_log w ++ [misses key (cache (lru w)) items] |})
    /\ maxsize c' = maxsize (lru w).
Proof.
  intros Hwf Hmax Hm He Hrows.
  destruct (fill_loop_spec (cache (lru w)) fl items [] [] 0
              (lru (refreshed key items w)) eq_refl Hrows Hmax)
    as (c' & Hfill & Hmax').
  exists c'. split; [|done]. unfold batched_embedding.
  erewrite bind_Ok by (by apply batched_split).
  destruct (misses key (cache (lru w)) items) as [|x ms] eqn:Hms; [done|].
  erewrite bind_Ok by (unfold run_inference; by rewrite He).
  unfold on_cache. cbn [lru inference_log refreshed].
  simpl in Hfill. by rewrite Hfill.
Qed.

(** Some miss, and inference returns fewer rows than misses. *)
Lemma batched_short items w fl :
  wf (cache (lru w)) ->
  encode (misses key (cache (lru w)) items) = Ok fl ->
  (length fl < length (misses key (cache (lru w)) items))%nat ->
  exists e w',
    batched_embedding key encode items w = (Raise e, w')
    /\ (1 <= maxsize (lru w) -> e = IndexError).
Proof.
  intros Hwf He Hrows.
  destruct (fill_loop_short (cache (lru w)) fl items [] [] 0
              (lru (refreshed key items w)) eq_refl)
    as (e & c' & Hfill & Hexn); [lia|].
  unfold batched_embedding.
  erewrite bind_Ok by (by apply batched_split).
  destruct (misses key (cache (lru w)) items) as [|x ms] eqn:Hms;
    [simpl in Hrows; lia|].
  erewrite bind_Ok by (unfold run_inference; by rewrite He).
  unfold on_cache. cbn [lru inference_log refreshed].
  simpl in Hfill. rewrite Hfill. eauto.
Qed.

(** [cache_set] that returns leaves a dictionary mapping the key to the
    value. *)
Lemma cache_set_stored (k : string) (v : embedding) self self' :
  wf (cache self) ->
  cache_set k v self = (Ok tt, self') ->
  wf (cache self') /\ get k (cache self') = Some v.
Proof.
  intros Hwf. rewrite cache_set_eq.
  destruct (pop k (cache self)) as [[old d]|] eqn:Hp.
  - destruct (pop_Some_wf _ _ _ _ Hwf Hp) as (Hwf' & Hnin & _).
    intros [= <-]. simpl. rewrite setitem_absent by done.
    split; [by apply wf_snoc | by apply get_snoc_eq].
  - apply pop_None, get_None in Hp.
    destruct (decide _).
    + destruct (cache self) as [|kv d] eqn:Hc; [done|].
      intros [= <-]. simpl.
      assert (Hnin : k ∉ keys d).
      { unfold keys in *. simpl in Hp. by apply not_elem_of_cons in Hp as [_ ?]. }
      assert (Hwf' : wf d).
      { unfold wf, keys in *. simpl in Hwf. by apply NoDup_cons in Hwf as [_ ?]. }
      rewrite setitem_absent by done.
      split; [by apply wf_snoc | by apply get_snoc_eq].
    + intros [= <-]. simpl. rewrite setitem_absent by done.
      split; [by apply wf_snoc | by apply get_snoc_eq].
Qed.

(** A single-item batch whose item is stored. *)
Lemma batched_single_hit x w value :
  wf (cache (lru w)) ->
  get (key x) (cache (lru w)) = Some value ->
  batched_embedding key encode [x] w = (Ok [Some value], refreshed key [x] w).
Proof.
  intros Hwf Hg. rewrite batched_all_hits; [|done|].
  - simpl. by rewrite Hg.
  - by rewrite (misses_cons_hit _ _ _ _ Hg).
Qed.

(** A single-item batch that returns leaves its item stored with the
    value returned. *)
Lemma batched_single_stored x w r w' :
  wf (cache (lru w)) ->
  batched_embedding key encode [x] w = (Ok r, w') ->
  exists value,
    r = [Some value] /\ wf (cache (lru w'))
    /\ get (key x) (cache (lru w')) = Some value.
Proof.
  intros Hwf Hrun.
  destruct (get (key x) (cache (lru w))) as [value|] eqn:Hg.
  - rewrite (batched_single_hit _ _ _ Hwf Hg) in Hrun.
    injection Hrun as <- <-. exists value. split; [done|]. simpl.
    split; [by apply touch_wf | by rewrite touch_get].
  - revert Hrun. unfold batched_embedding.
    erewrite bind_Ok by (by apply batched_split).
    rewrite (misses_cons_miss _ _ _ Hg). cbn [misses filter list_filter].
    rewrite (miss_indices_cons_miss _ _ _ _ Hg).
    unfold bind at 1, run_inference.
    destruct (encode [x]) as [fl|e]; [|done].
    unfold on_cache. cbn [lru inference_log refreshed fill_loop miss_indices].
    destruct fl as [|row fl].
    { erewrite bind_Raise by (by apply subscript_None). done. }
    erewrite bind_Ok by (by apply subscript_Some).
    erewrite bind_Ok by (by apply subscript_Some).
    set (c := with_cache _ _).
    destruct (cache_set (key x) row c) as [[[]|e] c'] eqn:Hset.
    + erewrite bind_Ok by apply Hset.
      cbn [fmap list_fmap]. unfold bind, assign_item, ret. simpl.
      intros [= <- <-]. exists row. split; [done|]. simpl.
      apply (cache_set_stored _ _ c); [|done].
      subst c. simpl. by apply touch_wf.
    + erewrite bind_Raise by apply Hset. done.
Qed.
(** The closed form answers the batch slot by slot from the first rows,
    one per miss; rows beyond those are not used. *)
Lemma assemble_slotwise d fl items :
  (length (misses key d items) <= length fl)%nat ->
  slotwise key d (take (length (misses key d items)) fl) items
    (assemble key d fl 0 items).
Proof.
  intros Hrows. split; [apply length_assemble|].
  intros i Hi. destruct (lookup_lt_is_Some_2 items i Hi) as [x Hx].
  rewrite (lookup_assemble _ _ _ _ _ _ Hx). unfold expected. rewrite Hx.
  destruct (get (key x) d) as [value|] eqn:Hg; [eauto|]. simpl.
  pose proof (misses_take_lt _ _ _ _ Hx Hg) as Hlt.
  rewrite lookup_take_lt by done.
  destruct (lookup_lt_is_Some_2 fl (length (misses key d (take i items))))
    as [row Hrow]; [lia|].
  rewrite Hrow. eauto.
Qed.

(** Inference returning at least one row per miss is enough for the
    operation to return, and to answer slot by slot from the first rows. *)
Lemma batched_enough_rows items w fl :
  wf (cache (lru w)) ->
  1 <= maxsize (lru w) ->
  (misses key (cache (lru w)) items <> [] ->
   encode (misses key (cache (lru w)) items) = Ok fl) ->
  (length (misses key (cache (lru w)) items) <= length fl)%nat ->
  exists out w',
    batched_embedding key encode items w = (Ok out, w')
    /\ slotwise key (cache (lru w))
         (take (length (misses key (cache (lru w)) items)) fl) items out.
Proof.
  intros Hwf Hmax Henc Hrows.
  pose proof (assemble_slotwise (cache (lru w)) fl items Hrows) as Hslot.
  destruct (decide (misses key (cache (lru w)) items = [])) as [Hnone|Hsome].
  - rewrite (batched_all_hits items w Hwf Hnone).
    eexists _, _. split; [done|].
    by rewrite <- (assemble_no_miss _ fl 0).
  - destruct (batched_computed items w fl Hwf Hmax Hsome (Henc Hsome) Hrows)
      as (c' & Hrun & _).
    rewrite Hrun. by eexists _, _.
Qed.

(** When inference works item by item and what the cache stores agrees
    with it, the closed form is the item-wise embedding of the batch. *)
Lemma assemble_pointwise d fl (embed : Item -> embedding) rest :
  forall i,
    drop i fl = embed <$> misses key d rest ->
    (forall x value, x ∈ rest -> get (key x) d = Some value -> value = embed x) ->
    assemble key d fl i rest = (fun x => Some (embed x)) <$> rest.
Proof.
  induction rest as [|x rest IH]; intros i Hrows Hstored; [done|].
  cbn [assemble fmap list_fmap].
  assert (Hrest : forall y value,
             y ∈ rest -> get (key y) d = Some value -> value = embed y).
  { intros y value Hy. apply Hstored. by apply list_elem_of_further. }
  destruct (get (key x) d) as [value|] eqn:Hg.
  - rewrite (misses_cons_hit _ _ _ _ Hg) in Hrows.
    rewrite (Hstored x value (list_elem_of_here _ _) Hg).
    f_equal. by apply IH.
  - rewrite (misses_cons_miss _ _ _ Hg) in Hrows. cbn [fmap list_fmap] in Hrows.
    assert (Hrow : fl !! i = Some (embed x)).
    { rewrite <- (Nat.add_0_r i), <- lookup_drop, Hrows. done. }
    assert (Hnext : drop (Datatypes.S i) fl = embed <$> misses key d rest).
    { replace (Datatypes.S i) with (i + 1)%nat by lia.
      rewrite <- drop_drop, Hrows. done. }
    rewrite Hrow. f_equal. by apply IH.
Qed.

(** Order preservation in its item-wise reading: with inference that
    embeds each item on its own and a cache that stores, for the keys of
    the batch, what inference would return, the operation returns the
    embeddings of the items, in the order of the items. *)
Lemma batched_pointwise (embed : Item -> embedding) items w :
  wf (cache (lru w)) ->
  1 <= maxsize (lru w) ->
  (forall xs, encode xs = Ok (embed <$> xs)) ->
  (forall x value,
      x ∈ items -> get (key x) (cache (lru w)) = Some value -> value = embed x) ->
  exists w',
    batched_embedding key encode items w =
    (Ok ((fun x => Some (embed x)) <$> items), w').
Proof.
  intros Hwf Hmax Henc Hstored.
  pose proof (assemble_pointwise (cache (lru w))
                (embed <$> misses key (cache (lru w)) items) embed items 0
                eq_refl Hstored) as Hout.
  destruct (decide (misses key (cache (lru w)) items = [])) as [Hnone|Hsome].
  - rewrite (batched_all_hits items w Hwf Hnone).
    rewrite <- (assemble_no_miss _ (embed <$> misses key (cache (lru w)) items)
                  0 _ Hnone), Hout.
    eauto.
  - destruct (batched_computed items w _ Hwf Hmax Hsome (Henc _))
      as (c' & Hrun & _); [by rewrite length_fmap|].
    rewrite Hrun, Hout. eauto.
Qed.
End batched_facts.

(** ** Properties of the LRU store *)

Section lru_properties.
Import OrderedDict OrderedDictFacts.
Context {K V : Type} `{EqDecision K}.

(** C2 (capacity invariant).  A store built with a capacity [m], a
    non-negative count, holds at most [m] entries after any finite
    sequence of [cache_get] and [cache_set] calls on it, whether or not a
    call raised; the capacity itself never changes. *)
Theorem capacity_invariant (m : Z) (os : list (cache_op K V)) :
  0 <= m ->
  Z.of_nat (length (cache (exec_ops os (LRUCache_init m)))) <= m
  /\ maxsize (exec_ops os (LRUCache_init m)) = m.
Proof.
  intros Hm. split.
  - apply (exec_ops_bounded os (LRUCache_init m)). simpl. lia.
  - apply (maxsize_exec_ops os (LRUCache_init m)).
Qed.

(** C3 (eviction order).  With capacity [C >= 1], after [cache_set] of
    [C] pairwise distinct keys [k1], ..., [kC] into the empty store, the
    store holds exactly these, oldest first; [cache_set] of one more
    distinct key then returns and leaves [k2], ..., [k(C+1)]: the entry
    of [k1], and only it, is gone. *)
Theorem eviction_order (C : Z) (k1 : K) (v1 : V) (mid : list (K * V))
    (kl : K) (vl : V) :
  1 <= C ->
  Z.of_nat (length ((k1, v1) :: mid)) = C ->
  NoDup (keys ((k1, v1) :: mid ++ [(kl, vl)])) ->
  set_each ((k1, v1) :: mid) (LRUCache_init C) =
    {| cache := (k1, v1) :: mid; maxsize := C |}
  /\ cache_set kl vl {| cache := (k1, v1) :: mid; maxsize := C |} =
       (Ok tt, {| cache := mid ++ [(kl, vl)]; maxsize := C |})
  /\ get k1 (mid ++ [(kl, vl)]) = None.
Proof.
  intros HC Hlen Hnd.
  assert (Hnd' : NoDup (keys ((k1, v1) :: mid)) /\ (kl ∉ keys ((k1, v1) :: mid))).
  { unfold keys in *. rewrite app_comm_cons, fmap_app in Hnd.
    apply NoDup_app in Hnd as (Hnd1 & Hdisj & _). split; [done|].
    intros Hin. apply (Hdisj _ Hin). simpl. apply list_elem_of_here. }
  destruct Hnd' as [Hnd1 Hkl]. repeat split.
  - rewrite set_each_fresh; [done | done | simpl in *; lia].
  - rewrite (cache_set_fresh_full kl vl (k1, v1) mid); [done..|].
    simpl in *. lia.
  - apply get_None. unfold keys in *. simpl in Hnd.
    by apply NoDup_cons in Hnd as [? _].
Qed.

(** C4 (recency refresh).  With capacity [C >= 2] and the store filled
    by [cache_set] of [C] pairwise distinct keys [k1], [k2], ..., [kC],
    [cache_get k1] returns the value of [k1] and makes it the most recent
    entry; [cache_set] of a further distinct key then evicts [k2] and
    keeps [k1]. *)
Theorem recency_refresh (C : Z) (k1 : K) (v1 : V) (k2 : K) (v2 : V)
    (mid : list (K * V)) (kn : K) (vn : V) :
  2 <= C ->
  Z.of_nat (length ((k1, v1) :: (k2, v2) :: mid)) = C ->
  NoDup (keys ((k1, v1) :: (k2, v2) :: mid ++ [(kn, vn)])) ->
  set_each ((k1, v1) :: (k2, v2) :: mid) (LRUCache_init C) =
    {| cache := (k1, v1) :: (k2, v2) :: mid; maxsize := C |}
  /\ cache_get k1 {| cache := (k1, v1) :: (k2, v2) :: mid; maxsize := C |} =
       (Ok (Some v1),
        {| cache := (k2, v2) :: mid ++ [(k1, v1)]; maxsize := C |})
  /\ cache_set kn vn
       {| cache := (k2, v2) :: mid ++ [(k1, v1)]; maxsize := C |} =
       (Ok tt, {| cache := mid ++ [(k1, v1); (kn, vn)]; maxsize := C |})
  /\ get k2 (mid ++ [(k1, v1); (kn, vn)]) = None
  /\ get k1 (mid ++ [(k1, v1); (kn, vn)]) = Some v1.
Proof.
  intros HC Hlen Hnd. unfold keys in *.
  assert (Hsplit : NoDup (((k1, v1) :: (k2, v2) :: mid).*1)
                   /\ (kn ∉ ((k1, v1) :: (k2, v2) :: mid).*1)).
  { rewrite 2!app_comm_cons, fmap_app in Hnd.
    apply NoDup_app in Hnd as (Hnd1 & Hdisj & _). split; [done|].
    intros Hin. apply (Hdisj _ Hin). simpl. apply list_elem_of_here. }
  destruct Hsplit as [Hnd1 Hkn].
  pose proof Hnd1 as Hnd2. simpl in Hnd2.
  apply NoDup_cons in Hnd2 as [Hk1 Hnd2].
  apply NoDup_cons in Hnd2 as [Hk2 Hnd3].
  apply not_elem_of_cons in Hk1 as [Hk12 Hk1].
  simpl in Hkn. apply not_elem_of_cons in Hkn as [Hkn1 Hkn].
  apply not_elem_of_cons in Hkn as [Hkn2 Hkn].
  assert (Hk1' : k1 ∉ keys ((k2, v2) :: mid)).
  { unfold keys. simpl. apply not_elem_of_cons. done. }
  repeat split.
  - rewrite set_each_fresh; [done | done | simpl in *; lia].
  - rewrite cache_get_eq. cbn [cache pop].
    destruct (decide (k1 = k1)); [|done].
    by rewrite (setitem_absent k1 v1 ((k2, v2) :: mid) Hk1').
  - rewrite (cache_set_fresh_full kn vn (k2, v2) (mid ++ [(k1, v1)])).
    + by rewrite <- app_assoc.
    + done.
    + unfold keys. simpl. rewrite fmap_app. simpl.
      rewrite not_elem_of_cons, not_elem_of_app, not_elem_of_cons.
      repeat split; [done | done | done | apply not_elem_of_nil].
    + simpl in *. rewrite length_app. simpl. lia.
  - apply get_None. unfold keys. rewrite fmap_app. simpl.
    rewrite not_elem_of_app, !not_elem_of_cons.
    repeat split; [done | congruence | done | apply not_elem_of_nil].
  - rewrite (get_app_absent k1 mid) by done. simpl.
    by destruct (decide (k1 = k1)).
Qed.

(** C10 (zero capacity).  A store built with [maxsize = 0] never holds
    a key, and [cache_set] of any key raises [KeyError] on it, leaving it
    as it was; with [maxsize >= 1], [cache_set] returns in every state. *)
Theorem cache_set_needs_capacity :
  (forall (os : list (cache_op K V)) (key : K) (value : V),
      cache (exec_ops os (LRUCache_init 0)) = []
      /\ cache_set key value (exec_ops os (LRUCache_init 0)) =
           (Raise KeyError, exec_ops os (LRUCache_init 0)))
  /\ (forall (self : LRUCache K V) (key : K) (value : V),
        1 <= maxsize self ->
        exists self', cache_set key value self = (Ok tt, self')).
Proof.
  split.
  - intros os key value.
    pose proof (exec_ops_no_room (K:=K) (V:=V) 0 os (Z.le_refl 0)) as Hempty.
    pose proof (maxsize_exec_ops os (LRUCache_init (K:=K) (V:=V) 0)) as Hmax.
    split; [done|]. rewrite cache_set_eq, Hempty. simpl.
    destruct (decide _) as [|Hn]; [done|]. simpl in *. lia.
  - intros self key value. apply cache_set_total.
Qed.
End lru_properties.

(** ** Properties of the cached batch operations *)

Section batch_properties.
Import OrderedDict OrderedDictFacts.
Context {float Image : Type}.
Local Abbreviation embedding := (list float).
Variable encode_text : list string -> result (list embedding).
Variable serialize_image : Image -> string.
Variable encode_image : list Image -> result (list embedding).

(** C1 (order preservation).  Let the cache hold each key once and have
    room for at least one entry, and let inference, where the batch has
    misses, return one row per miss.  Then [batched_text_embedding]
    returns a list as long as the batch whose slot [i] holds the
    embedding of item [i]: the stored one when the item's key was cached,
    and else the row inference returned at the item's rank among the
    misses.  The same holds for [batched_image_embedding], with the
    digest of the image as key. *)
Theorem order_preservation :
  (forall (text : list string) (w : Endpoint string embedding)
          (fl : list embedding),
      wf (cache (lru w)) ->
      1 <= maxsize (lru w) ->
      (misses (fun t => t) (cache (lru w)) text <> [] ->
       encode_text (misses (fun t => t) (cache (lru w)) text) = Ok fl) ->
      length fl = length (misses (fun t => t) (cache (lru w)) text) ->
      exists out w',
        batched_text_embedding encode_text text w = (Ok out, w')
        /\ slotwise (fun t => t) (cache (lru w)) fl text out)
  /\ (forall (image : list Image) (w : Endpoint Image embedding)
             (fl : list embedding),
        wf (cache (lru w)) ->
        1 <= maxsize (lru w) ->
        (misses serialize_image (cache (lru w)) image <> [] ->
         encode_image (misses serialize_image (cache (lru w)) image) = Ok fl) ->
        length fl = length (misses serialize_image (cache (lru w)) image) ->
        exists out w',
          batched_image_embedding serialize_image encode_image image w =
            (Ok out, w')
          /\ slotwise serialize_image (cache (lru w)) fl image out).
Proof.
  split; intros items w fl Hwf Hmax Henc Hlen.
  - destruct (batched_enough_rows (fun t => t) encode_text items w fl)
      as (out & w' & Hrun & Hslot); [done | done | done | lia |].
    rewrite <- Hlen, take_ge in Hslot by lia. by exists out, w'.
  - destruct (batched_enough_rows serialize_image encode_image items w fl)
      as (out & w' & Hrun & Hslot); [done | done | done | lia |].
    rewrite <- Hlen, take_ge in Hslot by lia. by exists out, w'.
Qed.

(** C5 (idempotence).  When a single-item batch returns, the same batch
    submitted again returns the same list, and inference is not run: the
    item is no miss, and the log of inference calls is as the first call
    left it.  This holds for texts and for images. *)
Theorem single_item_idempotence :
  (forall (t : string) (w w1 : Endpoint string embedding)
          (r1 : list (option embedding)),
      wf (cache (lru w)) ->
      batched_text_embedding encode_text [t] w = (Ok r1, w1) ->
      exists w2,
        batched_text_embedding encode_text [t] w1 = (Ok r1, w2)
        /\ misses (fun t => t) (cache (lru w1)) [t] = []
        /\ inference_log w2 = inference_log w1)
  /\ (forall (img : Image) (w w1 : Endpoint Image embedding)
             (r1 : list (option embedding)),
        wf (cache (lru w)) ->
        batched_image_embedding serialize_image encode_image [img] w =
          (Ok r1, w1) ->
        exists w2,
          batched_image_embedding serialize_image encode_image [img] w1 =
            (Ok r1, w2)
          /\ misses serialize_image (cache (lru w1)) [img] = []
          /\ inference_log w2 = inference_log w1).
Proof.
  assert (Hgen : forall (Item : Type) (key : Item -> string)
                   (encode : list Item -> result (list embedding))
                   (x : Item) (w w1 : Endpoint Item embedding)
                   (r1 : list (option embedding)),
             wf (cache (lru w)) ->
             batched_embedding key encode [x] w = (Ok r1, w1) ->
             exists w2,
               batched_embedding key encode [x] w1 = (Ok r1, w2)
               /\ misses key (cache (lru w1)) [x] = []
               /\ inference_log w2 = inference_log w1).
  { intros Item key encode x w w1 r1 Hwf Hrun.
    destruct (batched_single_stored key encode x w r1 w1 Hwf Hrun)
      as (value & -> & Hwf1 & Hg1).
    rewrite (batched_single_hit key encode x w1 value Hwf1 Hg1).
    eexists. split; [done|]. split; [|done].
    by rewrite (misses_cons_hit key _ _ _ _ Hg1). }
  split; intros; by eapply Hgen.
Qed.

(** C9 (inference failure).  When the batch has misses and inference on
    them raises, the batch operation raises the same exception and
    returns no list; the cache is left exactly as the lookups of the
    first loop left it, which holds the same entries as before the call,
    in a possibly different order: no entry was added or overwritten.
    This holds for texts and for images. *)
Theorem inference_failure_leaves_cache :
  (forall (text : list string) (w : Endpoint string embedding) (e : exn),
      wf (cache (lru w)) ->
      misses (fun t => t) (cache (lru w)) text <> [] ->
      encode_text (misses (fun t => t) (cache (lru w)) text) = Raise e ->
      exists w',
        batched_text_embedding encode_text text w = (Raise e, w')
        /\ lru w' =
             (split_loop (fun t => t) text 0
                (replicate (length text) None) [] [] (lru w)).2
        /\ cache (lru w') ≡ₚ cache (lru w)
        /\ (forall k, get k (cache (lru w')) = get k (cache (lru w)))
        /\ maxsize (lru w') = maxsize (lru w))
  /\ (forall (image : list Image) (w : Endpoint Image embedding) (e : exn),
        wf (cache (lru w)) ->
        misses serialize_image (cache (lru w)) image <> [] ->
        encode_image (misses serialize_image (cache (lru w)) image) = Raise e ->
        exists w',
          batched_image_embedding serialize_image encode_image image w =
            (Raise e, w')
          /\ lru w' =
               (split_loop serialize_image image 0
                  (replicate (length image) None) [] [] (lru w)).2
          /\ cache (lru w') ≡ₚ cache (lru w)
          /\ (forall k, get k (cache (lru w')) = get k (cache (lru w)))
          /\ maxsize (lru w') = maxsize (lru w)).
Proof.
  assert (Hgen : forall (Item : Type) (key : Item -> string)
                   (encode : list Item -> result (list embedding))
                   (items : list Item) (w : Endpoint Item embedding) (e : exn),
             wf (cache (lru w)) ->
             misses key (cache (lru w)) items <> [] ->
             encode (misses key (cache (lru w)) items) = Raise e ->
             exists w',
               batched_embedding key encode items w = (Raise e, w')
               /\ lru w' =
                    (split_loop key items 0
                       (replicate (length items) None) [] [] (lru w)).2
               /\ cache (lru w') ≡ₚ cache (lru w)
               /\ (forall k, get k (cache (lru w')) = get k (cache (lru w)))
               /\ maxsize (lru w') = maxsize (lru w)).
  { intros Item key encode items w e Hwf Hsome Henc.
    rewrite (batched_upstream_failure key encode items w e Hwf Hsome Henc).
    eexists. split; [done|]. cbn [lru refreshed cache with_cache maxsize].
    pose proof (split_loop_spec key items [] [] [] (lru w) Hwf) as Hsplit.
    simpl in Hsplit. rewrite Hsplit.
    repeat split.
    - by apply touch_all_perm.
    - intros k. by apply touch_all_get. }
  split; intros; by apply Hgen.
Qed.

(** C6 (partial-hit batch).  With capacity 2 and the text cache holding
    ["a"] with the one-float embedding [[one]], the batch
    [["a"; "b"; "a"]] runs inference once, on [["b"]]; with [v_b] the row
    inference returns, the result is [[[one]; v_b; [one]]] and the cache
    ends with exactly the entries of ["a"], still [[one]], and of ["b"],
    which is [v_b]. *)
Theorem partial_hit_batch (one : float) (v_b : embedding)
    (log : list (list string)) :
  encode_text ["b"] = Ok [v_b] ->
  batched_text_embedding encode_text ["a"; "b"; "a"]
    {| lru := {| cache := [("a", [one])]; maxsize := 2 |};
       inference_log := log |} =
  (Ok [Some [one]; Some v_b; Some [one]],
   {| lru := {| cache := [("a", [one]); ("b", v_b)]; maxsize := 2 |};
      inference_log := log ++ [["b"]] |}).
Proof.
  intros Henc. vm_compute. vm_compute in Henc. by rewrite Henc.
Qed.

(** C7 (duplicate misses).  With capacity 10 and an empty text cache, the
    first loop over [["x"; "x"]] finds two misses, at positions 0 and 1;
    inference is run once, on [["x"; "x"]]; when it returns the same row
    [v] twice, the result is [[v; v]] and the cache ends with the single
    entry of ["x"]. *)
Theorem duplicate_miss_batch (v : embedding) (log : list (list string)) :
  encode_text ["x"; "x"] = Ok [v; v] ->
  split_loop (fun t => t) ["x"; "x"] 0 [None; None] [] []
    (LRUCache_init (V:=embedding) 10) =
    (Ok ([None; None], ["x"; "x"], [0%nat; 1%nat]), LRUCache_init 10)
  /\ batched_text_embedding encode_text ["x"; "x"]
       {| lru := LRUCache_init 10; inference_log := log |} =
     (Ok [Some v; Some v],
      {| lru := {| cache := [("x", v)]; maxsize := 10 |};
         inference_log := log ++ [["x"; "x"]] |}).
Proof.
  intros Henc. split; [reflexivity|].
  vm_compute. vm_compute in Henc. by rewrite Henc.
Qed.

(** C8, as the code has it (row count mismatch).  The code does not
    compare the number of rows with the number of misses.  With fewer
    rows than misses the second loop raises and no list is returned (the
    exception is [IndexError] when the cache has room for an entry).
    With more rows than misses the operation returns as usual: the slots
    are answered from the first rows, one per miss, and the rows beyond
    those are not used.  This holds for texts and for images. *)
Theorem row_count_mismatch :
  (forall (text : list string) (w : Endpoint string embedding)
          (fl : list embedding),
      wf (cache (lru w)) ->
      encode_text (misses (fun t => t) (cache (lru w)) text) = Ok fl ->
      ((length fl < length (misses (fun t => t) (cache (lru w)) text))%nat ->
       exists e w',
         batched_text_embedding encode_text text w = (Raise e, w')
         /\ (1 <= maxsize (lru w) -> e = IndexError))
      /\ ((length (misses (fun t => t) (cache (lru w)) text) < length fl)%nat ->
          1 <= maxsize (lru w) ->
          exists out w',
            batched_text_embedding encode_text text w = (Ok out, w')
            /\ slotwise (fun t => t) (cache (lru w))
                 (take (length (misses (fun t => t) (cache (lru w)) text)) fl)
                 text out))
  /\ (forall (image : list Image) (w : Endpoint Image embedding)
             (fl : list embedding),
        wf (cache (lru w)) ->
        encode_image (misses serialize_image (cache (lru w)) image) = Ok fl ->
        ((length fl < length (misses serialize_image (cache (lru w)) image))%nat ->
         exists e w',
           batched_image_embedding serialize_image encode_image image w =
             (Raise e, w')
           /\ (1 <= maxsize (lru w) -> e = IndexError))
        /\ ((length (misses serialize_image (cache (lru w)) image) < length fl)%nat ->
            1 <= maxsize (lru w) ->
            exists out w',
              batched_image_embedding serialize_image encode_image image w =
                (Ok out, w')
              /\ slotwise serialize_image (cache (lru w))
                   (take (length (misses serialize_image (cache (lru w)) image)) fl)
                   image out)).
Proof.
  split; intros items w fl Hwf Henc; split.
  - intros Hshort. by apply (batched_short (fun t => t) encode_text items w fl).
  - intros Hlong Hmax.
    apply (batched_enough_rows (fun t => t) encode_text items w fl);
      [done | done | done | lia].
  - intros Hshort. by apply (batched_short serialize_image encode_image items w fl).
  - intros Hlong Hmax.
    apply (batched_enough_rows serialize_image encode_image items w fl);
      [done | done | done | lia].
Qed.
End batch_properties.

(** ** The properties at concrete inputs *)

Module Instances.
Import OrderedDict Fixtures.

Ltac by_decision :=
  unfold wf, keys;
  match goal with
  | |- ?P => apply (@bool_decide_unpack P _); vm_compute; exact I
  end.

Lemma capacity_invariant_witness :
  0 <= 2
  /\ Z.of_nat (length (cache (exec_ops
        [OpSet "a" 1; OpSet "b" 2; OpGet "a"; OpSet "c" 3; OpGet "z"]
        (LRUCache_init 2)))) <= 2.
Proof.
  split; [lia|].
  apply (capacity_invariant 2
           [OpSet "a" 1; OpSet "b" 2; OpGet "a"; OpSet "c" 3; OpGet "z"]).
  lia.
Defined.

Lemma eviction_order_witness :
  cache_set "c" 3 {| cache := [("a", 1); ("b", 2)]; maxsize := 2 |} =
  (Ok tt, {| cache := [("b", 2); ("c", 3)]; maxsize := 2 |}).
Proof.
  apply (eviction_order 2 "a" 1 [("b", 2)] "c" 3);
    [lia | reflexivity | by_decision].
Defined.

Lemma recency_refresh_witness :
  cache_set "d" 4 {| cache := [("b", 2); ("c", 3); ("a", 1)]; maxsize := 3 |} =
  (Ok tt, {| cache := [("c", 3); ("a", 1); ("d", 4)]; maxsize := 3 |}).
Proof.
  apply (recency_refresh 3 "a" 1 "b" 2 [("c", 3)] "d" 4);
    [lia | reflexivity | by_decision].
Defined.

Lemma cache_set_needs_capacity_witness :
  cache_set "a" 1 (exec_ops [OpGet "a"] (LRUCache_init 0)) =
    (Raise KeyError, exec_ops [OpGet "a"] (LRUCache_init 0))
  /\ exists self', cache_set "a" 1 (LRUCache_init 1) = (Ok tt, self').
Proof.
  split.
  - apply (proj1 (cache_set_needs_capacity (K:=string) (V:=Z)) [OpGet "a"] "a" 1).
  - apply (proj2 (cache_set_needs_capacity (K:=string) (V:=Z)) (LRUCache_init 1) "a" 1).
    simpl. lia.
Defined.

Lemma order_preservation_witness :
  (exists out w',
      batched_text_embedding text_rows ["a"; "bb"; "a"] text_endpoint = (Ok out, w')
      /\ slotwise (fun t => t) [("a", [1])] [[2]] ["a"; "bb"; "a"] out)
  /\ (exists out w',
        batched_image_embedding digest image_rows [7%nat; 65%nat] image_endpoint =
          (Ok out, w')
        /\ slotwise digest [(digest 65, [65])] [[7]] [7%nat; 65%nat] out).
Proof.
  split.
  - apply (proj1 (order_preservation text_rows digest image_rows)
             ["a"; "bb"; "a"] text_endpoint [[2]]);
      [by_decision | simpl; lia | intros _; reflexivity | reflexivity].
  - apply (proj2 (order_preservation text_rows digest image_rows)
             [7%nat; 65%nat] image_endpoint [[7]]);
      [by_decision | simpl; lia | intros _; reflexivity | reflexivity].
Defined.

Lemma single_item_idempotence_witness :
  (exists w2,
      batched_text_embedding text_rows ["bb"]
        {| lru := {| cache := [("a", [1]); ("bb", [2])]; maxsize := 2 |};
           inference_log := [["bb"]] |} = (Ok [Some [2]], w2)
      /\ inference_log w2 = [["bb"]])
  /\ (exists w2,
        batched_image_embedding digest image_rows [7%nat]
          {| lru := {| cache := [(digest 65, [65]); (digest 7, [7])]; maxsize := 2 |};
             inference_log := [[7%nat]] |} = (Ok [Some [7]], w2)
        /\ inference_log w2 = [[7%nat]]).
Proof.
  split.
  - destruct (proj1 (single_item_idempotence text_rows digest image_rows)
                "bb" text_endpoint
                {| lru := {| cache := [("a", [1]); ("bb", [2])]; maxsize := 2 |};
                   inference_log := [["bb"]] |}
                [Some [2]]) as (w2 & Hrun & _ & Hlog);
      [by_decision | reflexivity |].
    exists w2. split; [exact Hrun | exact Hlog].
  - destruct (proj2 (single_item_idempotence text_rows digest image_rows)
                7%nat image_endpoint
                {| lru := {| cache := [(digest 65, [65]); (digest 7, [7])];
                           maxsize := 2 |};
                   inference_log := [[7%nat]] |}
                [Some [7]]) as (w2 & Hrun & _ & Hlog);
      [by_decision | reflexivity |].
    exists w2. split; [exact Hrun | exact Hlog].
Defined.

Lemma partial_hit_batch_witness :
  batched_text_embedding text_rows ["a"; "b"; "a"] text_endpoint =
  (Ok [Some [1]; Some [1]; Some [1]],
   {| lru := {| cache := [("a", [1]); ("b", [1])]; maxsize := 2 |};
      inference_log := [["b"]] |}).
Proof.
  apply (partial_hit_batch text_rows 1 [1] []). reflexivity.
Defined.

Lemma duplicate_miss_batch_witness :
  batched_text_embedding text_rows ["x"; "x"]
    {| lru := LRUCache_init 10; inference_log := [] |} =
  (Ok [Some [1]; Some [1]],
   {| lru := {| cache := [("x", [1])]; maxsize := 10 |};
      inference_log := [["x"; "x"]] |}).
Proof.
  apply (duplicate_miss_batch text_rows [1] []). reflexivity.
Defined.

Lemma inference_failure_leaves_cache_witness :
  (exists w',
      batched_text_embedding failing ["a"; "b"] text_endpoint =
        (Raise UpstreamError, w')
      /\ cache (lru w') ≡ₚ [("a", [1])])
  /\ (exists w',
        batched_image_embedding digest failing [7%nat; 65%nat] image_endpoint =
          (Raise UpstreamError, w')
        /\ cache (lru w') ≡ₚ [(digest 65, [65])]).
Proof.
  split.
  - destruct (proj1 (inference_failure_leaves_cache failing digest failing)
                ["a"; "b"] text_endpoint UpstreamError)
      as (w' & Hrun & _ & Hperm & _);
      [by_decision | discriminate | reflexivity |].
    exists w'. split; [exact Hrun | exact Hperm].
  - destruct (proj2 (inference_failure_leaves_cache failing digest failing)
                [7%nat; 65%nat] image_endpoint UpstreamError)
      as (w' & Hrun & _ & Hperm & _);
      [by_decision | discriminate | reflexivity |].
    exists w'. split; [exact Hrun | exact Hperm].
Defined.

(** The run behind the counterexample of C8: one miss, two rows, and the
    operation returns a list. *)
Example surplus_rows_run :
  misses (fun t => t) (cache (lru (fresh_endpoint (Item:=string)))) ["b"] = ["b"]
  /\ two_rows ["b"] = Ok [[1]; [2]]
  /\ batched_text_embedding two_rows ["b"] fresh_endpoint =
       (Ok [Some [1]],
        {| lru := {| cache := [("b", [1])]; maxsize := 100 |};
           inference_log := [["b"]] |}).
Proof. repeat split. Qed.

(** C8 as stated fails: it is not so that the operation raises whenever
    the number of rows differs from the number of misses.  With an empty
    cache of capacity 100, the batch [["b"]] and inference returning the
    two rows [[1]] and [[2]], the operation returns [[[1]]]. *)
Lemma mismatch_not_always_fatal :
  ~ (forall (encode_text : list string -> result (list (list Z)))
            (text : list string) (w : Endpoint string (list Z))
            (fl : list (list Z)),
        wf (cache (lru w)) ->
        misses (fun t => t) (cache (lru w)) text <> [] ->
        encode_text (misses (fun t => t) (cache (lru w)) text) = Ok fl ->
        length fl <> length (misses (fun t => t) (cache (lru w)) text) ->
        exists e w', batched_text_embedding encode_text text w = (Raise e, w')).
Proof.
  intros Hclaim.
  destruct (Hclaim two_rows ["b"] fresh_endpoint [[1]; [2]])
    as (e & w' & Hrun); [by_decision | discriminate | reflexivity | discriminate |].
  destruct surplus_rows_run as (_ & _ & Hok). rewrite Hok in Hrun. discriminate.
Qed.

Lemma row_count_mismatch_witness :
  (exists e w',
      batched_text_embedding no_rows ["a"; "b"] text_endpoint = (Raise e, w')
      /\ e = IndexError)
  /\ (exists out w',
        batched_image_embedding digest two_rows [7%nat; 65%nat] image_endpoint =
          (Ok out, w')
        /\ slotwise digest [(digest 65, [65])] [[1]] [7%nat; 65%nat] out).
Proof.
  split.
  - destruct (proj1 (proj1 (row_count_mismatch no_rows digest two_rows)
                       ["a"; "b"] text_endpoint []
                       (ltac:(by_decision)) eq_refl))
      as (e & w' & Hrun & He); [simpl; lia|].
    exists e, w'. split; [exact Hrun | apply He; simpl; lia].
  - apply (proj2 (proj2 (row_count_mismatch no_rows digest two_rows)
                    [7%nat; 65%nat] image_endpoint [[1]; [2]]
                    (ltac:(by_decision)) eq_refl));
      [vm_compute; lia | simpl; lia].
Defined.
End Instances.

(** ** More about the LRU store *)

Section lru_more_facts.
Import OrderedDict OrderedDictFacts.
Context {K V : Type} `{EqDecision K}.
Implicit Types (k key : K) (v value : V) (d : list (K * V))
  (self : LRUCache K V).

Lemma without_absent k d : k ∉ keys d -> without k d = d.
Proof.
  unfold without, keys. induction d as [|[k' v'] d IH]; simpl; [done|].
  rewrite not_elem_of_cons. intros [Hne Hnin].
  rewrite filter_cons_True by (simpl; congruence). by rewrite IH.
Qed.

Lemma without_app k d1 d2 : without k (d1 ++ d2) = without k d1 ++ without k d2.
Proof. apply filter_app. Qed.

Lemma keys_without k k' d :
  k' ∈ keys d -> k' <> k -> k' ∈ keys (without k d).
Proof.
  unfold keys, without. intros Hin Hne.
  apply list_elem_of_fmap in Hin as ([k1 v1] & -> & Hin).
  apply list_elem_of_fmap. exists (k1, v1). split; [done|].
  apply list_elem_of_filter. by split.
Qed.

Lemma absent_without k d : k ∉ keys (without k d).
Proof.
  unfold keys, without. intros Hin.
  apply list_elem_of_fmap in Hin as ([k1 v1] & -> & Hin).
  apply list_elem_of_filter in Hin as [Hne _]. by apply Hne.
Qed.

Lemma length_without_le k d : (length (without k d) <= length d)%nat.
Proof. apply length_filter. Qed.

(** What [pop] leaves is the dictionary without the key. *)
Lemma pop_without k v d d' :
  wf d -> pop k d = Some (v, d') -> d' = without k d.
Proof.
  unfold wf, keys. revert d'.
  induction d as [|[k1 v1] d IH]; simpl; intros d' Hwf; [done|].
  apply NoDup_cons in Hwf as [Hnin Hwf].
  destruct (decide (k1 = k)) as [->|Hne].
  - intros [= -> ->]. unfold without.
    rewrite filter_cons_False by (simpl; tauto).
    symmetry. by apply without_absent.
  - destruct (pop k d) as [[w d'']|] eqn:Hp; [|done].
    intros [= -> <-]. unfold without.
    rewrite filter_cons_True by done. f_equal. by apply IH.
Qed.

Lemma pop_present k v d : get k d = Some v -> exists d', pop k d = Some (v, d').
Proof.
  intros Hg. destruct (pop k d) as [[w d']|] eqn:Hp.
  - pose proof (pop_Some _ _ _ _ Hp) as (Hg' & _ & _).
    rewrite Hg in Hg'. injection Hg' as ->. by exists d'.
  - apply pop_None in Hp. congruence.
Qed.

Lemma pop_snoc k v d : k ∉ keys d -> pop k (d ++ [(k, v)]) = Some (v, d).
Proof.
  unfold keys. induction d as [|[k1 v1] d IH]; simpl.
  - intros _. by destruct (decide (k = k)).
  - rewrite not_elem_of_cons. intros [Hne Hnin].
    destruct (decide (k1 = k)); [congruence|]. by rewrite IH.
Qed.

Lemma wf_without k d : wf d -> wf (without k d).
Proof.
  unfold wf, keys, without. intros Hwf.
  induction d as [|[k1 v1] d IH]; simpl; [done|].
  simpl in Hwf. apply NoDup_cons in Hwf as [Hnin Hwf].
  destruct (decide (k1 = k)) as [->|Hne].
  - rewrite filter_cons_False by (simpl; tauto). by apply IH.
  - rewrite filter_cons_True by done. simpl. apply NoDup_cons. split; [|by apply IH].
    intros Hin. apply Hnin.
    apply list_elem_of_fmap in Hin as ([k2 v2] & -> & Hin).
    apply list_elem_of_filter in Hin as [_ Hin].
    apply list_elem_of_fmap. by exists (k2, v2).
Qed.

(** [cache_get] of a stored key, in closed form. *)
Lemma cache_get_present key value self :
  wf (cache self) ->
  get key (cache self) = Some value ->
  cache_get key self =
  (Ok (Some value),
   with_cache (without key (cache self) ++ [(key, value)]) self).
Proof.
  intros Hwf Hg. rewrite cache_get_eq.
  destruct (pop_present _ _ _ Hg) as [d' Hp]. rewrite Hp.
  rewrite (pop_without _ _ _ _ Hwf Hp).
  by rewrite setitem_absent by apply absent_without.
Qed.

(** [cache_set] of a stored key, in closed form. *)
Lemma cache_set_present key value old self :
  wf (cache self) ->
  get key (cache self) = Some old ->
  cache_set key value self =
  (Ok tt, with_cache (without key (cache self) ++ [(key, value)]) self).
Proof.
  intros Hwf Hg. rewrite cache_set_eq.
  destruct (pop_present _ _ _ Hg) as [d' Hp]. rewrite Hp.
  rewrite (pop_without _ _ _ _ Hwf Hp).
  by rewrite setitem_absent by apply absent_without.
Qed.

(** A [cache_set] that returns leaves its pair last. *)
Lemma cache_set_last key value self self' :
  wf (cache self) ->
  cache_set key value self = (Ok tt, self') ->
  exists d',
    cache self' = d' ++ [(key, value)]
    /\ (key ∉ keys d') /\ wf d' /\ maxsize self' = maxsize self.
Proof.
  intros Hwf. destruct (get key (cache self)) as [old|] eqn:Hg.
  - rewrite (cache_set_present _ _ _ _ Hwf Hg). intros [= <-].
    exists (without key (cache self)). simpl.
    repeat split; [apply absent_without | by apply wf_without].
  - apply get_None in Hg. rewrite cache_set_eq, pop_absent by done.
    destruct (decide _).
    + destruct (cache self) as [|kv d] eqn:Hc; [done|].
      intros [= <-]. exists d. simpl.
      unfold wf, keys in *. simpl in *.
      apply not_elem_of_cons in Hg as [_ Hg].
      apply NoDup_cons in Hwf as [_ Hwf].
      by rewrite setitem_absent.
    + intros [= <-]. exists (cache self). simpl.
      by rewrite setitem_absent.
Qed.

(** A [cache_set] that raises found an empty store without room, and left
    it as it was. *)
Lemma cache_set_raises key value self e self' :
  cache_set key value self = (Raise e, self') ->
  e = KeyError /\ self' = self /\ cache self = [] /\ maxsize self <= 0.
Proof.
  rewrite cache_set_eq. destruct (pop key (cache self)) as [[old d]|]; [done|].
  destruct (decide _) as [Hfull|]; [|done].
  destruct (cache self) as [|kv d] eqn:Hc; [|done].
  intros [= <- <-]. simpl in Hfull. repeat split; try done. lia.
Qed.

Lemma wf_exec_op o self : wf (cache self) -> wf (cache (exec_op o self)).
Proof.
  intros Hwf. destruct o as [key|key value]; simpl.
  - rewrite cache_get_touch. simpl. by apply touch_wf.
  - destruct (cache_set key value self) as [[[]|e] self'] eqn:Hset; simpl.
    + destruct (cache_set_last _ _ _ _ Hwf Hset) as (d' & -> & Hnin & Hwf' & _).
      by apply wf_snoc.
    + by apply cache_set_raises in Hset as (_ & -> & _).
Qed.

Lemma wf_exec_ops os self : wf (cache self) -> wf (cache (exec_ops os self)).
Proof.
  intros Hwf. induction os as [|o os IH] using rev_ind; [done|].
  rewrite exec_ops_snoc. by apply wf_exec_op.
Qed.

(** *** Keeping the recent keys *)

Lemma holds_recent_nothing d : holds_recent 0 [] d.
Proof.
  exists d, []. rewrite app_nil_r. repeat split; [|done].
  intros k Hk. by apply elem_of_nil in Hk.
Qed.

Lemma holds_recent_weaken n n' ks d :
  (n <= n')%nat -> holds_recent n ks d -> holds_recent n' ks d.
Proof.
  intros Hle (old & recent & -> & Hks & Hlen).
  exists old, recent. repeat split; [done|lia].
Qed.

(** Moving or adding a key to the end keeps the recent keys recent. *)
Lemma holds_recent_move n ks k v d :
  holds_recent n ks d ->
  holds_recent (Datatypes.S n) (k :: ks) (without k d ++ [(k, v)]).
Proof.
  intros (old & recent & -> & Hks & Hlen).
  exists (without k old), (without k recent ++ [(k, v)]).
  rewrite without_app, <- app_assoc. repeat split.
  - intros k' Hk'. unfold keys. rewrite fmap_app. apply elem_of_app.
    destruct (decide (k' = k)) as [->|Hne].
    + right. simpl. apply list_elem_of_here.
    + left. apply elem_of_cons in Hk' as [?|Hk']; [done|].
      apply keys_without; [by apply Hks | done].
  - rewrite length_app. simpl.
    pose proof (length_without_le k recent). lia.
Qed.

(** Dropping the oldest entry for a new key keeps the recent keys, when
    they are fewer than the entries. *)
Lemma holds_recent_evict n ks k v oldest rest :
  holds_recent n ks (oldest :: rest) ->
  (n < length (oldest :: rest))%nat ->
  holds_recent (Datatypes.S n) (k :: ks) (rest ++ [(k, v)]).
Proof.
  intros (old & recent & Hd & Hks & Hlen) Hn.
  destruct old as [|o old].
  - simpl in Hd. subst recent. lia.
  - simpl in Hd. injection Hd as -> ->.
    exists old, (recent ++ [(k, v)]). rewrite <- app_assoc. repeat split.
    + intros k' Hk'. unfold keys. rewrite fmap_app. apply elem_of_app.
      apply elem_of_cons in Hk' as [->|Hk'].
      * right. simpl. apply list_elem_of_here.
      * left. by apply Hks.
    + rewrite length_app. simpl. lia.
Qed.

Lemma holds_recent_present n ks k d :
  holds_recent n ks d -> k ∈ ks -> k ∈ keys d.
Proof.
  intros (old & recent & -> & Hks & _) Hk.
  unfold keys. rewrite fmap_app. apply elem_of_app. right. by apply Hks.
Qed.

(** One [cache_set] with fewer recent keys than the capacity: it returns,
    and the key joins the recent ones. *)
Lemma cache_set_holds_recent n ks key value self :
  wf (cache self) ->
  holds_recent n ks (cache self) ->
  Z.of_nat n < maxsize self ->
  exists self',
    cache_set key value self = (Ok tt, self')
    /\ wf (cache self')
    /\ maxsize self' = maxsize self
    /\ holds_recent (Datatypes.S n) (key :: ks) (cache self').
Proof.
  intros Hwf Hrec Hn.
  destruct (cache_set_total key value self) as [self' Hset]; [lia|].
  exists self'. split; [done|].
  destruct (cache_set_last _ _ _ _ Hwf Hset) as (d' & Hd' & Hnin & Hwf' & Hmax).
  split; [rewrite Hd'; by apply wf_snoc|]. split; [done|].
  destruct (get key (cache self)) as [old|] eqn:Hg.
  - rewrite (cache_set_present _ _ _ _ Hwf Hg) in Hset.
    injection Hset as <-. simpl. by apply holds_recent_move.
  - apply get_None in Hg.
    destruct (decide (Z.of_nat (length (cache self)) < maxsize self)) as [Hroom|Hfull].
    + rewrite (cache_set_fresh_room _ _ _ Hg Hroom) in Hset.
      injection Hset as <-. simpl.
      rewrite <- (without_absent key (cache self) Hg) at 1.
      by apply holds_recent_move.
    + destruct (cache self) as [|oldest rest] eqn:Hc; [simpl in *; lia|].
      rewrite (cache_set_fresh_full key value oldest rest self Hc) in Hset;
        [| done | rewrite Hc; lia].
      injection Hset as <-. simpl.
      apply (holds_recent_evict n ks key value oldest rest Hrec).
      simpl in *. lia.
Qed.

Lemma set_each_holds_recent kvs :
  forall n ks self,
    wf (cache self) ->
    holds_recent n ks (cache self) ->
    Z.of_nat (n + length kvs) <= maxsize self ->
    wf (cache (set_each kvs self))
    /\ maxsize (set_each kvs self) = maxsize self
    /\ holds_recent (n + length kvs) (rev kvs.*1 ++ ks) (cache (set_each kvs self)).
Proof.
  induction kvs as [|[k v] kvs IH]; intros n ks self Hwf Hrec Hlen.
  - simpl. rewrite Nat.add_0_r. done.
  - simpl in Hlen.
    destruct (cache_set_holds_recent n ks k v self Hwf Hrec)
      as (self' & Hset & Hwf' & Hmax & Hrec'); [lia|].
    destruct (IH (Datatypes.S n) (k :: ks) self' Hwf' Hrec') as (Hwf'' & Hmax' & Hrec'');
      [lia|].
    assert (Hstep : set_each ((k, v) :: kvs) self = set_each kvs self').
    { unfold set_each, exec_ops. simpl. by rewrite Hset. }
    rewrite Hstep. repeat split; [done | congruence |].
    simpl. replace (n + Datatypes.S (length kvs))%nat
      with (Datatypes.S n + length kvs)%nat by lia.
    by rewrite <- app_assoc.
Qed.
End lru_more_facts.

Section lru_more_lemmas.
Import OrderedDict OrderedDictFacts.
Context {K V : Type} `{EqDecision K}.
Implicit Types (k key : K) (v value : V) (d : list (K * V))
  (self : LRUCache K V).

Lemma get_without_ne k k' d : k' <> k -> get k' (without k d) = get k' d.
Proof.
  intros Hne. unfold without. induction d as [|[k1 v1] d IH]; [done|].
  destruct (decide (k1 = k)) as [->|Hk1].
  - rewrite filter_cons_False by (simpl; tauto). simpl.
    destruct (decide (k = k')); [congruence | done].
  - rewrite filter_cons_True by done. simpl. by rewrite IH.
Qed.

Lemma length_without_present k v d :
  wf d -> get k d = Some v -> length d = Datatypes.S (length (without k d)).
Proof.
  intros Hwf Hg. destruct (pop_present _ _ _ Hg) as [d' Hp].
  rewrite <- (pop_without _ _ _ _ Hwf Hp).
  by apply pop_Some in Hp as (_ & _ & ?).
Qed.

(** After a [cache_set] that returns, another key maps to what it mapped
    to before, unless it was the one evicted. *)
Lemma cache_set_other key value self self' k' :
  wf (cache self) ->
  cache_set key value self = (Ok tt, self') ->
  k' <> key ->
  get k' (cache self') = get k' (cache self) \/ get k' (cache self') = None.
Proof.
  intros Hwf Hset Hne. destruct (get key (cache self)) as [old|] eqn:Hg.
  - rewrite (cache_set_present _ _ _ _ Hwf Hg) in Hset. injection Hset as <-.
    left. simpl. rewrite get_snoc_ne by done. by apply get_without_ne.
  - apply get_None in Hg.
    destruct (decide (Z.of_nat (length (cache self)) < maxsize self)) as [Hroom|Hfull].
    + rewrite (cache_set_fresh_room _ _ _ Hg Hroom) in Hset. injection Hset as <-.
      left. simpl. by rewrite get_snoc_ne.
    + destruct (cache self) as [|[k0 v0] rest] eqn:Hc.
      * rewrite cache_set_eq, pop_absent, Hc in Hset by (by rewrite Hc).
        destruct (decide _); [done|]. simpl in *. lia.
      * rewrite (cache_set_fresh_full key value (k0, v0) rest self Hc) in Hset;
          [| done | rewrite Hc; lia].
        injection Hset as <-. simpl. rewrite get_snoc_ne by done.
        destruct (decide (k0 = k')) as [->|]; [|by left].
        right. apply get_None. unfold wf, keys in Hwf. simpl in Hwf.
        by apply NoDup_cons in Hwf as [? _].
Qed.

Lemma set_each_snoc kvs k v self :
  set_each (kvs ++ [(k, v)]) self = (cache_set k v (set_each kvs self)).2.
Proof.
  unfold set_each. rewrite fmap_app. cbn [fmap list_fmap].
  by rewrite exec_ops_snoc.
Qed.

Lemma present_get k d : k ∈ keys d -> exists v, get k d = Some v.
Proof.
  intros Hin. destruct (get k d) as [v|] eqn:Hg; [eauto|].
  by apply get_None in Hg.
Qed.

(** With no more writes than the capacity, every written key maps to the
    value written last. *)
Lemma set_each_latest kvs :
  forall self,
    wf (cache self) ->
    Z.of_nat (length kvs) <= maxsize self ->
    forall k, k ∈ kvs.*1 ->
      get k (cache (set_each kvs self)) = get k (rev kvs).
Proof.
  induction kvs as [|[k1 v1] kvs IH] using rev_ind; intros self Hwf Hlen k Hk.
  - by apply elem_of_nil in Hk.
  - rewrite length_app in Hlen. simpl in Hlen.
    destruct (set_each_holds_recent kvs 0 [] self Hwf (holds_recent_nothing _))
      as (Hwf1 & Hmax1 & Hrec1); [simpl; lia|].
    destruct (set_each_holds_recent (kvs ++ [(k1, v1)]) 0 [] self Hwf
                (holds_recent_nothing _)) as (_ & _ & Hrec2);
      [rewrite length_app; simpl; lia|].
    rewrite set_each_snoc in *. rewrite rev_unit. simpl.
    destruct (cache_set_total k1 v1 (set_each kvs self)) as [self' Hset];
      [rewrite Hmax1; lia|].
    rewrite Hset in *. simpl in *.
    destruct (cache_set_last _ _ _ _ Hwf1 Hset) as (d' & Hd' & Hnin & _ & _).
    destruct (decide (k1 = k)) as [->|Hne].
    + rewrite Hd'. by apply get_snoc_eq.
    + assert (Hin : k ∈ kvs.*1).
      { rewrite fmap_app in Hk. apply elem_of_app in Hk as [?|Hk]; [done|].
        simpl in Hk. apply list_elem_of_singleton in Hk. congruence. }
      assert (Hpresent : k ∈ keys (cache self')).
      { apply (holds_recent_present _ _ _ _ Hrec2).
        rewrite app_nil_r, fmap_app, rev_app_distr. simpl.
        apply list_elem_of_further. apply list_elem_of_In.
        apply -> in_rev. by apply list_elem_of_In. }
      destruct (present_get _ _ Hpresent) as [v Hv].
      destruct (cache_set_other _ _ _ _ k Hwf1 Hset) as [Hsame|Hgone];
        [congruence | | congruence].
      rewrite Hsame. apply IH; [done | lia | done].
Qed.

(** Writing distinct keys into the empty store keeps the last ones, as
    many as the capacity. *)
Lemma set_each_init_drop (C : Z) (kvs : list (K * V)) :
  1 <= C ->
  NoDup kvs.*1 ->
  set_each kvs (LRUCache_init C) =
  {| cache := drop (length kvs - Z.to_nat C) kvs; maxsize := C |}.
Proof.
  intros HC. induction kvs as [|[k v] kvs IH] using rev_ind; intros Hnd; [done|].
  rewrite fmap_app in Hnd. apply NoDup_app in Hnd as (Hnd & Hdisj & _).
  assert (Hk : k ∉ kvs.*1).
  { intros Hin. apply (Hdisj _ Hin). simpl. apply list_elem_of_here. }
  rewrite set_each_snoc, (IH Hnd). rewrite length_app. simpl.
  assert (Hk' : k ∉ keys (drop (length kvs - Z.to_nat C) kvs)).
  { unfold keys. intros Hin. apply Hk.
    apply list_elem_of_fmap in Hin as (kv & -> & Hin).
    apply list_elem_of_fmap. exists kv. split; [done|].
    rewrite <- (take_drop (length kvs - Z.to_nat C) kvs).
    apply elem_of_app. by right. }
  destruct (decide (length kvs < Z.to_nat C)%nat) as [Hroom|Hfull].
  - rewrite cache_set_fresh_room; simpl; [| done | rewrite length_drop; lia].
    replace (length kvs - Z.to_nat C)%nat with 0%nat by lia.
    replace (length kvs + 1 - Z.to_nat C)%nat with 0%nat by lia. done.
  - destruct (lookup_lt_is_Some_2 kvs (length kvs - Z.to_nat C)) as [oldest Hold];
      [lia|].
    rewrite (cache_set_fresh_full k v oldest
               (drop (Datatypes.S (length kvs - Z.to_nat C)) kvs)).
    + replace (length kvs + 1 - Z.to_nat C)%nat
        with (Datatypes.S (length kvs - Z.to_nat C)) by lia.
      rewrite drop_app_le by lia. done.
    + simpl. by apply drop_S.
    + by rewrite <- (drop_S _ _ _ Hold).
    + simpl. rewrite length_drop. lia.
Qed.
End lru_more_lemmas.

(** ** Further properties of the LRU store *)

Section lru_more_properties.
Import OrderedDict OrderedDictFacts.
Context {K V : Type} `{EqDecision K}.

(** X1 (lookup of an absent key).  [cache_get] of a key the store does not
    hold returns [None] without raising, and leaves the store exactly as
    it was, order included. *)
Theorem cache_get_absent (key : K) (self : LRUCache K V) :
  key ∉ keys (cache self) ->
  cache_get key self = (Ok None, self).
Proof.
  intros Hk. rewrite cache_get_eq, pop_absent by done. done.
Qed.

(** X2 (lookup of a stored key).  [cache_get] of a stored key returns its
    value and moves its entry to the most recent end; the other entries
    keep their order, every key maps to what it mapped to, and the number
    of entries and the capacity are unchanged. *)
Theorem cache_get_refreshes (key : K) (value : V) (self : LRUCache K V) :
  wf (cache self) ->
  get key (cache self) = Some value ->
  cache_get key self =
    (Ok (Some value),
     {| cache := without key (cache self) ++ [(key, value)];
        maxsize := maxsize self |})
  /\ length (without key (cache self) ++ [(key, value)]) = length (cache self)
  /\ forall k, get k (without key (cache self) ++ [(key, value)]) =
               get k (cache self).
Proof.
  intros Hwf Hg. split; [by apply cache_get_present|]. split.
  - rewrite length_app, (length_without_present key value (cache self)) by done.
    simpl. lia.
  - intros k. destruct (decide (k = key)) as [->|Hne].
    + rewrite get_snoc_eq by apply absent_without. done.
    + rewrite get_snoc_ne by done. by apply get_without_ne.
Qed.

(** X3 (write then read).  After a [cache_set] that returns, [cache_get] of
    the same key returns the value written, and leaves the store as the
    write left it. *)
Theorem cache_set_then_get (key : K) (value : V) (self self' : LRUCache K V) :
  wf (cache self) ->
  cache_set key value self = (Ok tt, self') ->
  cache_get key self' = (Ok (Some value), self').
Proof.
  intros Hwf Hset.
  destruct (cache_set_last _ _ _ _ Hwf Hset) as (d' & Hd' & Hnin & _ & _).
  rewrite cache_get_eq, Hd', pop_snoc by done.
  rewrite setitem_absent by done. rewrite <- Hd'. by destruct self'.
Qed.

(** X4 (overwriting).  [cache_set] of a stored key returns whatever the
    capacity, evicts nothing and does not grow the store: the entry moves
    to the most recent end with the new value, and every other key maps
    to what it mapped to. *)
Theorem cache_set_overwrites (key : K) (value old : V) (self : LRUCache K V) :
  wf (cache self) ->
  get key (cache self) = Some old ->
  cache_set key value self =
    (Ok tt,
     {| cache := without key (cache self) ++ [(key, value)];
        maxsize := maxsize self |})
  /\ length (without key (cache self) ++ [(key, value)]) = length (cache self)
  /\ forall k, k <> key ->
       get k (without key (cache self) ++ [(key, value)]) = get k (cache self).
Proof.
  intros Hwf Hg. split; [by apply (cache_set_present key value old)|]. split.
  - rewrite length_app, (length_without_present key old (cache self)) by done.
    simpl. lia.
  - intros k Hne. rewrite get_snoc_ne by done. by apply get_without_ne.
Qed.

(** X5 (writing a new key).  [cache_set] of a key the store does not hold
    appends the entry when there is room; when the store is full and not
    empty it drops the oldest entry, and only that one, before appending;
    when the store is full and empty it raises [KeyError] and changes
    nothing. *)
Theorem cache_set_absent_key (key : K) (value : V) (self : LRUCache K V) :
  key ∉ keys (cache self) ->
  (Z.of_nat (length (cache self)) < maxsize self ->
   cache_set key value self =
   (Ok tt, {| cache := cache self ++ [(key, value)]; maxsize := maxsize self |}))
  /\ (forall oldest rest,
        cache self = oldest :: rest ->
        Z.of_nat (length (cache self)) >= maxsize self ->
        cache_set key value self =
        (Ok tt, {| cache := rest ++ [(key, value)]; maxsize := maxsize self |}))
  /\ (cache self = [] ->
      0 >= maxsize self ->
      cache_set key value self = (Raise KeyError, self)).
Proof.
  intros Hk. repeat split.
  - intros Hroom. by apply cache_set_fresh_room.
  - intros oldest rest Hc Hfull.
    apply (cache_set_fresh_full key value oldest rest); [done | | done].
    by rewrite <- Hc.
  - intros Hc Hfull. rewrite cache_set_eq, pop_absent, Hc by done.
    destruct (decide _) as [|Hn]; [done|]. simpl in Hn. lia.
Qed.

(** X6 (keys stay unique).  Whatever calls are made on a store, starting
    from [LRUCache(maxsize)], it never holds a key twice. *)
Theorem unique_keys_invariant (m : Z) (os : list (cache_op K V)) :
  NoDup (keys (cache (exec_ops os (LRUCache_init m)))).
Proof.
  apply (wf_exec_ops os (LRUCache_init m)). apply NoDup_nil_2.
Qed.

(** X7 (filling beyond the capacity).  [cache_set] of any number of
    pairwise distinct keys into the empty store of capacity [C >= 1]
    leaves the last [C] of them (all of them when there are fewer), in
    the order written. *)
Theorem fill_beyond_capacity (C : Z) (kvs : list (K * V)) :
  1 <= C ->
  NoDup (keys kvs) ->
  set_each kvs (LRUCache_init C) =
  {| cache := drop (length kvs - Z.to_nat C) kvs; maxsize := C |}.
Proof. apply set_each_init_drop. Qed.

(** X8 (no capacity).  A store built with a capacity of zero or below
    never holds anything: every [cache_get] returns [None] and every
    [cache_set] raises [KeyError], each leaving the store as it was. *)
Theorem no_capacity_store (m : Z) (os : list (cache_op K V))
    (key : K) (value : V) :
  m <= 0 ->
  cache_get key (exec_ops os (LRUCache_init m)) =
    (Ok None, exec_ops os (LRUCache_init m))
  /\ cache_set key value (exec_ops os (LRUCache_init m)) =
       (Raise KeyError, exec_ops os (LRUCache_init m)).
Proof.
  intros Hm.
  pose proof (exec_ops_no_room (K:=K) (V:=V) m os Hm) as Hempty.
  pose proof (maxsize_exec_ops os (LRUCache_init (K:=K) (V:=V) m)) as Hmax.
  split.
  - apply cache_get_absent. rewrite Hempty. apply not_elem_of_nil.
  - rewrite cache_set_eq, Hempty. simpl.
    destruct (decide _) as [|Hn]; [done|]. simpl in *. lia.
Qed.

(** X9 (recent writes are retrievable).  After a run of [cache_set] calls
    no longer than the capacity, on a store in any state, every key
    written in the run is still stored, with the value written for it
    last. *)
Theorem recent_writes_retained (kvs : list (K * V)) (self : LRUCache K V)
    (k : K) :
  wf (cache self) ->
  Z.of_nat (length kvs) <= maxsize self ->
  k ∈ keys kvs ->
  exists v,
    get k (rev kvs) = Some v
    /\ get k (cache (set_each kvs self)) = Some v.
Proof.
  intros Hwf Hlen Hk.
  rewrite (set_each_latest kvs self Hwf Hlen k Hk).
  destruct (present_get k (rev kvs)) as [v Hv]; [|by exists v].
  unfold keys in *.
  apply list_elem_of_fmap in Hk as (kv & -> & Hin).
  apply list_elem_of_fmap. exists kv. split; [done|].
  apply list_elem_of_In. apply -> in_rev. by apply list_elem_of_In.
Qed.
End lru_more_properties.

(** ** More about the batch operations *)

Section batched_more_facts.
Import OrderedDict OrderedDictFacts.
Context {Item float : Type}.
Local Abbreviation embedding := (list float).
Variable key : Item -> string.
Variable encode : list Item -> result (list embedding).
Implicit Types (d : list (string * embedding)) (items rest : list Item)
  (self : LRUCache string embedding) (fl : list embedding)
  (w : Endpoint Item embedding).

Lemma exec_ops_app (os1 os2 : list (cache_op string embedding)) self :
  exec_ops (os1 ++ os2) self = exec_ops os2 (exec_ops os1 self).
Proof. unfold exec_ops. by rewrite foldl_app. Qed.

Lemma with_cache_self self : with_cache (cache self) self = self.
Proof. by destruct self. Qed.

(** The first loop leaves the cache as the lookups alone do. *)
Lemma touch_all_exec items self :
  with_cache (touch_all key items (cache self)) self =
  exec_ops ((fun x => OpGet (key x)) <$> items) self.
Proof.
  revert self. induction items as [|x rest IH]; intros self.
  - apply with_cache_self.
  - cbn [fmap list_fmap touch_all foldl]. unfold exec_ops. cbn [foldl].
    fold (exec_ops ((fun x => OpGet (key x)) <$> rest)
            (exec_op (OpGet (key x)) self)).
    rewrite <- IH. simpl. rewrite cache_get_touch. done.
Qed.

Lemma set_each_cons (k : string) (v : embedding) kvs self :
  set_each ((k, v) :: kvs) self = set_each kvs (cache_set k v self).2.
Proof. done. Qed.

(** The second loop with enough rows, result and cache: the cache is
    written once per miss, in the order of the misses. *)
Lemma fill_loop_run d fl rest :
  forall (processed : list Item) (pre : list (option embedding)) i self,
    length pre = length processed ->
    (i + length (misses key d rest) <= length fl)%nat ->
    1 <= maxsize self ->
    fill_loop key (processed ++ rest) fl i
      (miss_indices key d (length pre) rest)
      (pre ++ ((fun x => get (key x) d) <$> rest)) self =
    (Ok (pre ++ assemble key d fl i rest),
     set_each (zip (key <$> misses key d rest) (drop i fl)) self).
Proof.
  induction rest as [|x rest IH]; intros processed pre i self Hpre Hrows Hmax.
  - done.
  - assert (Hlen' : length (pre ++ [get (key x) d]) = Datatypes.S (length pre))
      by (rewrite length_app; simpl; lia).
    destruct (get (key x) d) as [value|] eqn:Hg.
    + rewrite (miss_indices_cons_hit _ _ _ _ _ _ Hg).
      rewrite (misses_cons_hit _ _ _ _ _ Hg) in Hrows |- *.
      cbn [fmap list_fmap assemble]. rewrite Hg.
      rewrite (cons_middle x processed), (cons_middle (Some value) pre).
      rewrite (cons_middle (Some value) pre (assemble _ _ _ _ _)).
      rewrite !app_assoc, <- Hlen'.
      apply IH; [rewrite !length_app; simpl; lia | done | done].
    + rewrite (miss_indices_cons_miss _ _ _ _ _ Hg).
      rewrite (misses_cons_miss _ _ _ _ Hg) in Hrows |- *. simpl in Hrows.
      destruct (fl !! i) as [row|] eqn:Hrow;
        [|apply lookup_ge_None in Hrow; lia].
      destruct (cache_set_total (key x) row self Hmax) as [self1 Hset].
      assert (Hmax1 : maxsize self1 = maxsize self).
      { change self1 with (Ok tt, self1).2. rewrite <- Hset.
        apply (maxsize_exec_op (OpSet (key x) row)). }
      rewrite (drop_S _ _ _ Hrow). cbn [fmap list_fmap zip_with].
      rewrite set_each_cons, Hset. cbn [snd].
      cbn [fill_loop assemble]. rewrite Hg, Hrow.
      erewrite bind_Ok by (by apply subscript_Some).
      erewrite bind_Ok
        by (apply subscript_Some; rewrite Hpre; apply list_lookup_middle; done).
      erewrite bind_Ok by apply Hset.
      erewrite bind_Ok by apply assign_item_middle.
      rewrite (cons_middle x processed), (cons_middle (Some row) pre).
      rewrite (cons_middle (Some row) pre (assemble _ _ _ _ _)).
      rewrite !app_assoc.
      pose proof (IH (processed ++ [x]) (pre ++ [Some row]) (Datatypes.S i) self1)
        as Hrun.
      rewrite length_app in Hrun. simpl in Hrun. rewrite Nat.add_1_r in Hrun.
      apply Hrun; [rewrite length_app; simpl; lia | lia | lia].
Qed.

(** Whatever the loops are given and however they end, the cache they
    leave is the one some sequence of cache calls leaves. *)
Lemma split_loop_trace items :
  forall idx (results : list (option embedding)) un ui self,
    exists os,
      (split_loop key items idx results un ui self).2 = exec_ops os self.
Proof.
  induction items as [|x rest IH]; intros idx results un ui self.
  - by exists [].
  - cbn [split_loop]. erewrite bind_Ok by apply cache_get_touch.
    assert (Hget : with_cache (touch (key x) (cache self)) self =
                   exec_op (OpGet (key x)) self).
    { simpl. by rewrite cache_get_touch. }
    rewrite Hget.
    destruct (get (key x) (cache self)) as [value|].
    + unfold bind at 1, assign_item.
      destruct (decide (idx < length results)%nat).
      * destruct (IH (Datatypes.S idx) (<[idx:=Some value]> results) un ui
                    (exec_op (OpGet (key x)) self)) as [os Hos].
        exists (OpGet (key x) :: os). simpl in *. by rewrite Hos.
      * by exists [OpGet (key x)].
    + destruct (IH (Datatypes.S idx) results (un ++ [x]) (ui ++ [idx])
                  (exec_op (OpGet (key x)) self)) as [os Hos].
      exists (OpGet (key x) :: os). by rewrite Hos.
Qed.

Lemma fill_loop_trace items fl (idxs : list nat) :
  forall i (results : list (option embedding)) self,
    exists os,
      (fill_loop key items fl i idxs results self).2 = exec_ops os self.
Proof.
  induction idxs as [|idx idxs IH]; intros i results self.
  - by exists [].
  - cbn [fill_loop]. unfold bind at 1, subscript.
    destruct (fl !! i) as [row|]; [|by exists []]. simpl.
    unfold bind at 1. destruct (items !! idx) as [x|]; [|by exists []]. simpl.
    unfold bind at 1.
    destruct (cache_set (key x) row self) as [[[]|e] self1] eqn:Hset.
    + assert (Hop : self1 = exec_op (OpSet (key x) row) self)
        by (simpl; by rewrite Hset).
      unfold bind at 1, assign_item.
      destruct (decide (idx < length results)%nat).
      * destruct (IH (Datatypes.S i) (<[idx:=Some row]> results) self1)
          as [os Hos].
        exists (OpSet (key x) row :: os). simpl in *. rewrite Hos.
        by rewrite Hop.
      * exists [OpSet (key x) row]. simpl. by rewrite Hset.
    + exists [OpSet (key x) row]. simpl. by rewrite Hset.
Qed.

Lemma batched_trace items w :
  exists os,
    lru (batched_embedding key encode items w).2 = exec_ops os (lru w).
Proof.
  unfold batched_embedding, bind at 1, on_cache at 1.
  destruct (split_loop_trace items 0 (replicate (length items) None) [] [] (lru w))
    as [os1 Hos1].
  destruct (split_loop key items 0 (replicate (length items) None) [] [] (lru w))
    as [[[[results un] ui]|e] c1]; simpl in Hos1; subst c1;
    [|by exists os1].
  destruct un as [|x un]; [by exists os1|].
  unfold bind, run_inference. simpl.
  destruct (encode (x :: un)) as [fl|e]; [|by exists os1].
  unfold on_cache. simpl.
  destruct (fill_loop_trace items fl ui 0 results (exec_ops os1 (lru w)))
    as [os2 Hos2].
  destruct (fill_loop key items fl 0 ui results (exec_ops os1 (lru w)))
    as [r c2]. simpl in *. subst c2.
  exists (os1 ++ os2). by rewrite exec_ops_app.
Qed.

(** The log grows by the misses, once, when there are any. *)
Lemma batched_log items w :
  wf (cache (lru w)) ->
  inference_log (batched_embedding key encode items w).2 =
  inference_log w ++
    match misses key (cache (lru w)) items with
    | [] => []
    | ms => [ms]
    end.
Proof.
  intros Hwf. unfold batched_embedding.
  erewrite bind_Ok by (by apply batched_split).
  destruct (misses key (cache (lru w)) items) as [|x ms].
  - simpl. by rewrite app_nil_r.
  - unfold bind, run_inference. simpl.
    destruct (encode (x :: ms)) as [fl|e]; [|done].
    unfold on_cache. simpl. by destruct (fill_loop _ _ _ _ _ _ _).
Qed.

(** The operation in full when inference returns enough rows. *)
Lemma batched_run items w fl :
  wf (cache (lru w)) ->
  1 <= maxsize (lru w) ->
  misses key (cache (lru w)) items <> [] ->
  encode (misses key (cache (lru w)) items) = Ok fl ->
  (length (misses key (cache (lru w)) items) <= length fl)%nat ->
  batched_embedding key encode items w =
  (Ok (assemble key (cache (lru w)) fl 0 items),
   {| lru := set_each (zip (key <$> misses key (cache (lru w)) items) fl)
               (lru (refreshed key items w));
      inference_log := inference_log w ++ [misses key (cache (lru w)) items] |}).
Proof.
  intros Hwf Hmax Hm He Hrows.
  pose proof (fill_loop_run (cache (lru w)) fl items [] [] 0
                (lru (refreshed key items w)) eq_refl Hrows Hmax) as Hfill.
  unfold batched_embedding.
  erewrite bind_Ok by (by apply batched_split).
  destruct (misses key (cache (lru w)) items) as [|x ms] eqn:Hms; [done|].
  erewrite bind_Ok by (unfold run_inference; by rewrite He).
  unfold on_cache. cbn [lru inference_log refreshed].
  simpl in Hfill. by rewrite Hfill.
Qed.
End batched_more_facts.

Section batched_retention.
Import OrderedDict OrderedDictFacts.
Context {Item float : Type}.
Local Abbreviation embedding := (list float).
Variable key : Item -> string.
Variable encode : list Item -> result (list embedding).
Implicit Types (d : list (string * embedding)) (items rest : list Item)
  (self : LRUCache string embedding) (fl : list embedding)
  (w : Endpoint Item embedding).

Lemma holds_recent_mono n (ks ks' : list string) d :
  (forall k, k ∈ ks' -> k ∈ ks) -> holds_recent n ks d -> holds_recent n ks' d.
Proof.
  intros Hsub (old & recent & -> & Hks & Hlen).
  exists old, recent. repeat split; [|done]. intros k Hk. by apply Hks, Hsub.
Qed.

Lemma touch_present (k : string) (v : embedding) d :
  wf d -> get k d = Some v -> touch k d = without k d ++ [(k, v)].
Proof.
  intros Hwf Hg. unfold touch. destruct (pop_present _ _ _ Hg) as [d' Hp].
  rewrite Hp, (pop_without _ _ _ _ Hwf Hp).
  by rewrite setitem_absent by apply absent_without.
Qed.

Lemma touch_absent (k : string) d : get k d = None -> touch k d = d.
Proof. intros Hg. unfold touch. by apply pop_None in Hg as ->. Qed.

(** After the first loop the keys of the hits are the most recent ones. *)
Lemma touch_all_holds_recent items :
  forall n ks d,
    wf d ->
    holds_recent n ks d ->
    holds_recent
      (n + length (filter (fun x => ~ is_miss key d x = true) items))
      ((key <$> filter (fun x => ~ is_miss key d x = true) items) ++ ks)
      (touch_all key items d).
Proof.
  induction items as [|x rest IH]; intros n ks d Hwf Hrec.
  - simpl. by rewrite Nat.add_0_r.
  - assert (Hext : forall k, get k (touch (key x) d) = get k d)
      by (intros; by apply touch_get).
    assert (Hfilter : filter (fun y => ~ is_miss key (touch (key x) d) y = true) rest =
                      filter (fun y => ~ is_miss key d y = true) rest).
    { apply list_filter_iff. intros y. by rewrite (is_miss_ext key d _ y Hext). }
    cbn [touch_all foldl]. fold (touch_all key rest (touch (key x) d)).
    destruct (get (key x) d) as [value|] eqn:Hg.
    + rewrite filter_cons_True
        by (unfold is_miss; rewrite Hg, bool_decide_eq_false_2; done).
      pose proof (IH (Datatypes.S n) (key x :: ks) (touch (key x) d)
                    (touch_wf _ _ Hwf)) as Hstep.
      rewrite Hfilter in Hstep.
      rewrite (touch_present _ _ _ Hwf Hg) in Hstep at 1.
      specialize (Hstep (holds_recent_move n ks (key x) value d Hrec)).
      cbn [fmap list_fmap length].
      replace (n + Datatypes.S (length (filter (fun y => ~ is_miss key d y = true) rest)))%nat
        with (Datatypes.S n + length (filter (fun y => ~ is_miss key d y = true) rest))%nat
        by lia.
      eapply holds_recent_mono; [|exact Hstep].
      intros k Hk. rewrite elem_of_app, elem_of_cons.
      simpl in Hk. rewrite elem_of_cons, elem_of_app in Hk. tauto.
    + rewrite filter_cons_False
        by (unfold is_miss; rewrite bool_decide_eq_true_2; tauto).
      rewrite (touch_absent _ _ Hg). by apply IH.
Qed.

Lemma hits_or_misses d items (x : Item) :
  x ∈ items ->
  x ∈ misses key d items \/ x ∈ filter (fun y => ~ is_miss key d y = true) items.
Proof.
  intros Hin. unfold misses. rewrite !list_elem_of_filter.
  destruct (is_miss key d x); [left | right]; by split.
Qed.

Lemma length_hits_misses d items :
  (length (filter (fun y => ~ is_miss key d y = true) items)
   + length (misses key d items))%nat = length items.
Proof.
  unfold misses.
  rewrite <- (Permutation_length
                (filter_app_complement (fun y => is_miss key d y = true) items)).
  rewrite length_app. lia.
Qed.

Lemma misses_all_stored d items :
  (forall x, x ∈ items -> key x ∈ keys d) -> misses key d items = [].
Proof.
  induction items as [|x rest IH]; intros Hall; [done|].
  destruct (present_get (key x) d) as [v Hv];
    [apply Hall, list_elem_of_here|].
  rewrite (misses_cons_hit _ _ _ _ _ Hv). apply IH.
  intros y Hy. by apply Hall, list_elem_of_further.
Qed.

(** A batch no longer than the capacity ends with all its keys stored. *)
Lemma batched_keys_stored items w fl :
  wf (cache (lru w)) ->
  Z.of_nat (length items) <= maxsize (lru w) ->
  (length (misses key (cache (lru w)) items) <= length fl)%nat ->
  let c' := set_each (zip (key <$> misses key (cache (lru w)) items) fl)
              (lru (refreshed key items w)) in
  wf (cache c') /\ forall x, x ∈ items -> key x ∈ keys (cache c').
Proof.
  intros Hwf Hlen Hrows c'.
  pose proof (touch_all_holds_recent items 0 [] (cache (lru w)) Hwf
                (holds_recent_nothing _)) as Hrec.
  pose proof (length_hits_misses (cache (lru w)) items) as Hcount.
  assert (Hzip : length (zip (key <$> misses key (cache (lru w)) items) fl) =
                 length (misses key (cache (lru w)) items)).
  { rewrite length_zip_with, length_fmap. lia. }
  destruct (set_each_holds_recent
              (zip (key <$> misses key (cache (lru w)) items) fl) _ _
              (lru (refreshed key items w))
              (touch_all_wf key items _ Hwf) Hrec) as (Hwf' & _ & Hrec').
  { simpl in *. rewrite Hzip. lia. }
  split; [done|]. intros x Hx.
  apply (holds_recent_present _ _ _ _ Hrec').
  rewrite fst_zip by (rewrite length_fmap; lia).
  rewrite app_nil_r, elem_of_app.
  destruct (hits_or_misses (cache (lru w)) items x Hx) as [Hmiss|Hhit].
  - left. apply list_elem_of_In. apply -> in_rev. apply list_elem_of_In.
    apply list_elem_of_fmap. by exists x.
  - right. apply list_elem_of_fmap. by exists x.
Qed.
End batched_retention.

(** ** Further properties of the cached batch operations

    The properties are stated for [batched_embedding] with any key and any
    inference; [batched_text_embedding] is it with the text as key and
    [batched_image_embedding] with the digest as key. *)

Section batch_more_properties.
Import OrderedDict OrderedDictFacts.
Context {Item float : Type}.
Local Abbreviation embedding := (list float).
Variable key : Item -> string.
Variable encode : list Item -> result (list embedding).

(** X10 (empty batch).  On the empty batch the operation returns the empty
    list; it runs no inference and leaves the cache as it was. *)
Theorem empty_batch (w : Endpoint Item embedding) :
  batched_embedding key encode [] w = (Ok [], w).
Proof. by destruct w. Qed.

(** X11 (inference is run at most once, on the misses).  Whether the call
    returns or raises, it adds at most one batch to the log of inference
    calls: nothing when every key is stored, and else the items whose key
    is not stored, in input order and with repetitions. *)
Theorem inference_once_on_misses (items : list Item)
    (w : Endpoint Item embedding) :
  wf (cache (lru w)) ->
  inference_log (batched_embedding key encode items w).2 =
  inference_log w ++
    match misses key (cache (lru w)) items with
    | [] => []
    | ms => [ms]
    end.
Proof. apply batched_log. Qed.

(** X12 (the cache stays sound).  Whether the call returns or raises, and
    whatever inference returns, the cache it leaves holds each key once,
    has the capacity it had, and holds no more entries than the capacity
    when that was so before. *)
Theorem batch_keeps_cache_sound (items : list Item)
    (w : Endpoint Item embedding) :
  wf (cache (lru w)) ->
  Z.of_nat (length (cache (lru w))) <= maxsize (lru w) ->
  wf (cache (lru (batched_embedding key encode items w).2))
  /\ maxsize (lru (batched_embedding key encode items w).2) = maxsize (lru w)
  /\ Z.of_nat (length (cache (lru (batched_embedding key encode items w).2)))
     <= maxsize (lru w).
Proof.
  intros Hwf Hlen. destruct (batched_trace key encode items w) as [os ->].
  repeat split.
  - by apply wf_exec_ops.
  - apply maxsize_exec_ops.
  - by apply exec_ops_bounded.
Qed.

(** X13 (what the call does to the cache).  A call that is given at least
    one row per miss leaves the cache as these calls leave it:
    [cache_get] of the key of every item, in input order, and then
    [cache_set] of the key of every miss with its row, in input order. *)
Theorem batch_cache_effect (items : list Item) (w : Endpoint Item embedding)
    (fl : list embedding) :
  wf (cache (lru w)) ->
  1 <= maxsize (lru w) ->
  (misses key (cache (lru w)) items <> [] ->
   encode (misses key (cache (lru w)) items) = Ok fl) ->
  (length (misses key (cache (lru w)) items) <= length fl)%nat ->
  exists out w',
    batched_embedding key encode items w = (Ok out, w')
    /\ lru w' =
       set_each (zip (key <$> misses key (cache (lru w)) items) fl)
         (exec_ops ((fun x => OpGet (key x)) <$> items) (lru w)).
Proof.
  intros Hwf Hmax Henc Hrows.
  rewrite <- touch_all_exec.
  destruct (decide (misses key (cache (lru w)) items = [])) as [Hnone|Hsome].
  - rewrite (batched_all_hits key encode items w Hwf Hnone), Hnone.
    by eexists _, _.
  - rewrite (batched_run key encode items w fl Hwf Hmax Hsome (Henc Hsome) Hrows).
    by eexists _, _.
Qed.

(** X14 (a batch that fits is fully cached).  When the batch has no more
    items than the capacity and the call is given at least one row per
    miss, the call returns and leaves the key of every item stored; the
    same batch submitted again then returns the stored values and runs no
    inference. *)
Theorem repeated_batch_runs_no_inference (items : list Item)
    (w : Endpoint Item embedding) (fl : list embedding) :
  wf (cache (lru w)) ->
  Z.of_nat (length items) <= maxsize (lru w) ->
  (misses key (cache (lru w)) items <> [] ->
   encode (misses key (cache (lru w)) items) = Ok fl) ->
  (length (misses key (cache (lru w)) items) <= length fl)%nat ->
  exists out w',
    batched_embedding key encode items w = (Ok out, w')
    /\ (forall x, x ∈ items -> key x ∈ keys (cache (lru w')))
    /\ exists w'',
         batched_embedding key encode items w' =
           (Ok ((fun x => get (key x) (cache (lru w'))) <$> items), w'')
         /\ inference_log w'' = inference_log w'.
Proof.
  intros Hwf Hlen Henc Hrows.
  destruct (decide (misses key (cache (lru w)) items = [])) as [Hnone|Hsome].
  - rewrite (batched_all_hits key encode items w Hwf Hnone).
    eexists _, _. split; [done|].
    assert (Hwf' : wf (cache (lru (refreshed key items w))))
      by (by apply touch_all_wf).
    assert (Hall : forall x, x ∈ items ->
                     key x ∈ keys (cache (lru (refreshed key items w)))).
    { intros x Hx.
      destruct (decide (key x ∈ keys (cache (lru (refreshed key items w)))))
        as [|Hg]; [done|].
      apply get_None in Hg. simpl in Hg. rewrite touch_all_get in Hg by done.
      assert (Hin : x ∈ misses key (cache (lru w)) items).
      { unfold misses. apply list_elem_of_filter. split; [|done].
        unfold is_miss. by rewrite bool_decide_eq_true_2. }
      rewrite Hnone in Hin. by apply elem_of_nil in Hin. }
    split; [done|].
    rewrite (batched_all_hits key encode items _ Hwf'
               (misses_all_stored key _ _ Hall)).
    by eexists.
  - assert (Hmax : 1 <= maxsize (lru w)).
    { destruct items; [done|]. simpl in Hlen. lia. }
    rewrite (batched_run key encode items w fl Hwf Hmax Hsome (Henc Hsome) Hrows).
    destruct (batched_keys_stored key encode items w fl Hwf Hlen Hrows)
      as [Hwf' Hall].
    set (w1 := {| lru := set_each
                           (zip (key <$> misses key (cache (lru w)) items) fl)
                           (lru (refreshed key items w));
                  inference_log :=
                    inference_log w ++ [misses key (cache (lru w)) items] |}).
    exists (assemble key (cache (lru w)) fl 0 items), w1.
    split; [done|]. split; [exact Hall|].
    rewrite (batched_all_hits key encode items w1 Hwf'
               (misses_all_stored key _ _ Hall)).
    by eexists.
Qed.

(** X15 (item-wise reading of the result).  When inference embeds each
    item on its own and the cache stores, for the keys of the batch, what
    inference would return, the call returns the embeddings of the items
    in the order of the items, whichever of them were cached. *)
Theorem batch_is_map_of_embed (embed : Item -> embedding)
    (items : list Item) (w : Endpoint Item embedding) :
  wf (cache (lru w)) ->
  1 <= maxsize (lru w) ->
  (forall xs, encode xs = Ok (embed <$> xs)) ->
  (forall x value,
      x ∈ items -> get (key x) (cache (lru w)) = Some value -> value = embed x) ->
  exists w',
    batched_embedding key encode items w =
    (Ok ((fun x => Some (embed x)) <$> items), w').
Proof. apply batched_pointwise. Qed.

(** X16 (a fully cached batch).  When the key of every item is stored, the
    call returns the stored values in input order, runs no inference, and
    leaves the cache with the same entries, reordered by the lookups. *)
Theorem fully_cached_batch (items : list Item) (w : Endpoint Item embedding) :
  wf (cache (lru w)) ->
  (forall x, x ∈ items -> key x ∈ keys (cache (lru w))) ->
  exists w',
    batched_embedding key encode items w =
      (Ok ((fun x => get (key x) (cache (lru w))) <$> items), w')
    /\ inference_log w' = inference_log w
    /\ cache (lru w') ≡ₚ cache (lru w)
    /\ (forall k, get k (cache (lru w')) = get k (cache (lru w)))
    /\ maxsize (lru w') = maxsize (lru w).
Proof.
  intros Hwf Hall.
  rewrite (batched_all_hits key encode items w Hwf (misses_all_stored key _ _ Hall)).
  eexists. split; [done|]. simpl. repeat split.
  - by apply touch_all_perm.
  - intros k. by apply touch_all_get.
Qed.
End batch_more_properties.

(** ** Properties of the model object and of zero-shot classification *)

Section zero_shot_properties.
Import OrderedDict OrderedDictFacts.
Context {float Image Scores : Type}.
Local Abbreviation embedding := (list float).
Variable encode_text : list string -> result (list embedding).
Variable serialize_image : Image -> string.
Variable encode_image : list Image -> result (list embedding).
Variable softmax_scores :
  list (option embedding) -> list (option embedding) -> result Scores.

Lemma batched_sound {Item : Type} (key : Item -> string)
    (encode : list Item -> result (list embedding)) (items : list Item)
    (m : Z) (w : Endpoint Item embedding) :
  sound_store m (lru w) ->
  sound_store m (lru (batched_embedding key encode items w).2).
Proof.
  intros (Hwf & Hmax & Hlen).
  destruct (batched_trace key encode items w) as [os ->].
  repeat split.
  - by apply wf_exec_ops.
  - by rewrite maxsize_exec_ops.
  - rewrite <- Hmax. apply exec_ops_bounded. by rewrite Hmax.
Qed.

Lemma serve_sound (m : Z) (r : request Image)
    (self : OpenClipVitB32 Image embedding) :
  sound_store m (lru (image_side self)) ->
  sound_store m (lru (text_side self)) ->
  sound_store m
    (lru (image_side
            (serve encode_text serialize_image encode_image softmax_scores r self)))
  /\ sound_store m
       (lru (text_side
               (serve encode_text serialize_image encode_image softmax_scores r self))).
Proof.
  intros Himg Htxt.
  pose proof (fun items => batched_sound serialize_image encode_image items m
                             (image_side self) Himg) as Himg'.
  pose proof (fun items => batched_sound (fun t => t) encode_text items m
                             (text_side self) Htxt) as Htxt'.
  destruct r as [text|image|image classes]; simpl.
  - unfold on_text_side, batched_text_embedding.
    specialize (Htxt' text).
    destruct (batched_embedding _ encode_text text (text_side self)) as [r e].
    by split.
  - unfold on_image_side, batched_image_embedding.
    specialize (Himg' image).
    destruct (batched_embedding _ encode_image image (image_side self)) as [r e].
    by split.
  - unfold batched_zero_shot_image_classification, bind, on_image_side,
      on_text_side, lift_result, batched_image_embedding, batched_text_embedding.
    specialize (Himg' image). specialize (Htxt' classes).
    destruct (batched_embedding _ encode_image image (image_side self))
      as [[image_embeddings|e] ie]; simpl; [|by split].
    destruct (batched_embedding _ encode_text classes (text_side self))
      as [[class_embeddings|e] te]; simpl; by split.
Qed.

(** X17 (classification stops at the first failure).  When some image is
    not cached and image inference raises, the classification raises the
    same exception; the classes are not embedded, so the text cache and
    its log are untouched, and the image cache holds the entries it held.
    When the images are embedded, some class is not cached and text
    inference raises, the classification raises that exception; the image
    cache keeps what the image call stored, and the text cache holds the
    entries it held. *)
Theorem classification_stops_at_failure (image : list Image)
    (classes : list string) (self : OpenClipVitB32 Image embedding) (e : exn) :
  wf (cache (lru (image_side self))) ->
  wf (cache (lru (text_side self))) ->
  (misses serialize_image (cache (lru (image_side self))) image <> [] ->
   encode_image (misses serialize_image (cache (lru (image_side self))) image) =
     Raise e ->
   exists self',
     batched_zero_shot_image_classification encode_text serialize_image
       encode_image softmax_scores image classes self = (Raise e, self')
     /\ text_side self' = text_side self
     /\ cache (lru (image_side self')) ≡ₚ cache (lru (image_side self)))
  /\ (forall image_embeddings ie,
        batched_image_embedding serialize_image encode_image image
          (image_side self) = (Ok image_embeddings, ie) ->
        misses (fun t => t) (cache (lru (text_side self))) classes <> [] ->
        encode_text (misses (fun t => t) (cache (lru (text_side self))) classes) =
          Raise e ->
        exists self',
          batched_zero_shot_image_classification encode_text serialize_image
            encode_image softmax_scores image classes self = (Raise e, self')
          /\ image_side self' = ie
          /\ cache (lru (text_side self')) ≡ₚ cache (lru (text_side self))).
Proof.
  intros Hwfi Hwft. split.
  - intros Hmiss Henc.
    unfold batched_zero_shot_image_classification, bind, on_image_side,
      batched_image_embedding.
    rewrite (batched_upstream_failure serialize_image encode_image image _ e
               Hwfi Hmiss Henc).
    eexists. split; [done|]. simpl. split; [done|].
    by apply touch_all_perm.
  - intros image_embeddings ie Himg Hmiss Henc.
    unfold batched_zero_shot_image_classification, bind, on_image_side,
      on_text_side, batched_text_embedding.
    rewrite Himg. simpl.
    rewrite (batched_upstream_failure (fun t => t) encode_text classes _ e
               Hwft Hmiss Henc).
    eexists. split; [done|]. simpl. split; [done|].
    by apply touch_all_perm.
Qed.

(** X18 (classification from the caches).  When the digest of every image
    and every class text is stored, the classification runs no inference
    on either side: it scores the stored embeddings, taken in the order
    of the images and of the classes. *)
Theorem classification_from_caches (image : list Image)
    (classes : list string) (self : OpenClipVitB32 Image embedding) :
  wf (cache (lru (image_side self))) ->
  wf (cache (lru (text_side self))) ->
  (forall img, img ∈ image ->
     serialize_image img ∈ keys (cache (lru (image_side self)))) ->
  (forall c, c ∈ classes -> c ∈ keys (cache (lru (text_side self)))) ->
  exists self',
    batched_zero_shot_image_classification encode_text serialize_image
      encode_image softmax_scores image classes self =
    (softmax_scores
       ((fun img => get (serialize_image img) (cache (lru (image_side self))))
          <$> image)
       ((fun c => get c (cache (lru (text_side self)))) <$> classes),
     self')
    /\ inference_log (image_side self') = inference_log (image_side self)
    /\ inference_log (text_side self') = inference_log (text_side self).
Proof.
  intros Hwfi Hwft Himg Htxt.
  unfold batched_zero_shot_image_classification, bind, on_image_side,
    on_text_side, lift_result, batched_image_embedding, batched_text_embedding.
  rewrite (batched_all_hits serialize_image encode_image image _ Hwfi
             (misses_all_stored serialize_image _ _ Himg)).
  simpl.
  rewrite (batched_all_hits (fun t => t) encode_text classes _ Hwft
             (misses_all_stored (fun t => t) _ _ Htxt)).
  simpl. by eexists.
Qed.

(** X19 (the caches of a loaded model stay sound).  After [_load_model]
    and any sequence of text, image and classification calls, whatever
    each returned or raised, each of the two caches holds every key once,
    has capacity 100 and holds at most 100 entries. *)
Theorem loaded_model_stays_sound (rs : list (request Image)) :
  sound_store 100
    (lru (image_side
            (serve_all encode_text serialize_image encode_image softmax_scores
               rs load_model)))
  /\ sound_store 100
       (lru (text_side
               (serve_all encode_text serialize_image encode_image
                  softmax_scores rs load_model))).
Proof.
  induction rs as [|r rs IH] using rev_ind.
  - simpl. unfold sound_store. simpl.
    repeat split; try apply NoDup_nil_2; lia.
  - unfold serve_all in *. rewrite foldl_app. simpl.
    destruct IH as [Himg Htxt]. by apply serve_sound.
Qed.
End zero_shot_properties.

(** ** Facts about [utils.py] *)

Section utils_facts.
Import Stdlib.Strings.Ascii Utils.

Lemma rbind_Ok {A B} (r : result A) (k : A -> result B) b :
  rbind r k = Ok b <-> exists a, r = Ok a /\ k a = Ok b.
Proof.
  destruct r as [a|e]; simpl.
  - split; [by exists a | by intros (a' & [= <-] & ?)].
  - split; [done | by intros (a' & ? & _)].
Qed.

(** The loop returns exactly when every string loads, and then returns
    what was loaded, in order, after what it started with. *)
Lemma load_loop_Ok {A} (load : string -> result A) strs :
  forall acc out,
    load_loop load acc strs = Ok out <->
    exists loaded,
      out = acc ++ loaded /\ Forall2 (fun s a => load s = Ok a) strs loaded.
Proof.
  induction strs as [|s rest IH]; intros acc out; simpl.
  - split.
    + intros [= <-]. exists []. by rewrite app_nil_r.
    + intros (loaded & -> & Hall). apply Forall2_nil_inv_l in Hall as ->.
      by rewrite app_nil_r.
  - rewrite rbind_Ok. split.
    + intros (a & Ha & Hrest). apply IH in Hrest as (loaded & -> & Hall).
      exists (a :: loaded). rewrite <- app_assoc. split; [done|].
      by apply Forall2_cons.
    + intros (loaded & -> & Hall).
      apply Forall2_cons_inv_l in Hall as (a & loaded' & Ha & Hall & ->).
      exists a. split; [done|]. apply IH. exists loaded'.
      by rewrite <- app_assoc.
Qed.

(** The loop raises what the first string that does not load raises. *)
Lemma load_loop_Raise {A} (load : string -> result A) strs :
  forall acc i s e (loaded : list A),
    Forall2 (fun s a => load s = Ok a) (take i strs) loaded ->
    strs !! i = Some s ->
    load s = Raise e ->
    load_loop load acc strs = Raise e.
Proof.
  induction strs as [|s0 rest IH]; intros acc i s e loaded Hall Hi Hs; [done|].
  destruct i as [|i]; simpl in *.
  - injection Hi as ->. by rewrite Hs.
  - apply Forall2_cons_inv_l in Hall as (a & loaded' & Ha & Hall & ->).
    rewrite Ha. simpl. by apply (IH _ i s e loaded').
Qed.

Lemma prefix_append (p h s : string) :
  String.prefix p h = true -> String.prefix p (String.append h s) = true.
Proof.
  revert h. induction p as [|c p IH]; intros h.
  - intros _. by destruct (String.append h s).
  - destruct h as [|c' h]; simpl; [done|].
    destruct (Ascii.ascii_dec c c'); [apply IH | done].
Qed.

Lemma split_first_comma_none (s : string) :
  ~ In ","%char (String.list_ascii_of_string s) -> split_first_comma s = [s].
Proof.
  induction s as [|c s IH]; simpl; [done|]. intros Hno.
  destruct (Ascii.eqb_spec c ","%char) as [->|Hne]; [tauto|].
  rewrite IH; [done|]. tauto.
Qed.

Lemma split_first_comma_header (header payload : string) :
  ~ In ","%char (String.list_ascii_of_string header) ->
  split_first_comma (String.append header (String ","%char payload)) =
  [header; payload].
Proof.
  induction header as [|c header IH]; simpl; [done|]. intros Hno.
  destruct (Ascii.eqb_spec c ","%char) as [->|Hne]; [tauto|].
  rewrite IH; [done|]. tauto.
Qed.

(** *** [batch] *)

Lemma chunk_take {A} (l : list A) (n ndx : nat) :
  slice l ndx (Nat.min (ndx + n) (length l)) = take n (drop ndx l).
Proof.
  unfold slice.
  destruct (decide (ndx + n <= length l)%nat).
  - f_equal. lia.
  - rewrite !take_ge; [done | rewrite length_drop; lia | rewrite length_drop; lia].
Qed.

Lemma batch_positive {A} (l : list A) (n : Z) :
  1 <= n ->
  batch l n =
  Some ((fun j => take (Z.to_nat n) (drop (j * Z.to_nat n) l))
          <$> seq 0 ((length l + Z.to_nat n - 1) / Z.to_nat n)).
Proof.
  intros Hn. unfold batch, range_from_zero.
  destruct (decide (n = 0)); [lia|]. destruct (decide (n < 0)); [lia|].
  f_equal. rewrite <- list_fmap_compose.
  apply list_fmap_ext. intros i j _. simpl. apply chunk_take.
Qed.

Lemma concat_chunks {A} (l : list A) (n k : nat) :
  concat ((fun j => take n (drop (j * n) l)) <$> seq 0 k) = take (k * n) l.
Proof.
  induction k as [|k IH]; [done|].
  rewrite seq_S, fmap_app, concat_app, IH. simpl.
  rewrite app_nil_r, take_take_drop. f_equal. lia.
Qed.

Lemma chunk_count_covers (len n : nat) :
  (1 <= n)%nat -> (len <= (len + n - 1) / n * n)%nat.
Proof.
  intros Hn.
  pose proof (Nat.div_mod_eq (len + n - 1) n) as Hdm.
  pose proof (Nat.mod_upper_bound (len + n - 1) n) as Hmod.
  nia.
Qed.

Lemma chunk_count_tight (len n i : nat) :
  (1 <= n)%nat -> (i < (len + n - 1) / n)%nat -> (i * n < len)%nat.
Proof.
  intros Hn Hi.
  pose proof (Nat.div_mod_eq (len + n - 1) n) as Hdm.
  nia.
Qed.
End utils_facts.

(** ** Properties of [utils.py] *)

Section utils_properties.
Import Stdlib.Strings.Ascii Utils.

(** X20 (chunks concatenate to the input).  For a chunk size of at least
    one, [batch] returns, and its chunks put end to end are the input:
    nothing is lost, repeated or reordered. *)
Theorem batch_concat {A : Type} (iterable : list A) (n : Z) :
  1 <= n ->
  exists chunks, batch iterable n = Some chunks /\ concat chunks = iterable.
Proof.
  intros Hn. rewrite (batch_positive iterable n Hn).
  eexists. split; [done|]. rewrite concat_chunks.
  apply take_ge. apply chunk_count_covers. lia.
Qed.

(** X21 (shape of the chunks).  For a chunk size [n] of at least one,
    [batch] yields the input length divided by [n], rounded up, many
    chunks; chunk [i] is the [n] items from position [i * n] on (fewer at
    the end of the input); no chunk is empty, and every chunk but the
    last holds exactly [n] items. *)
Theorem batch_chunks {A : Type} (iterable : list A) (n : Z) :
  1 <= n ->
  exists chunks,
    batch iterable n = Some chunks
    /\ length chunks = ((length iterable + Z.to_nat n - 1) / Z.to_nat n)%nat
    /\ forall i chunk,
         chunks !! i = Some chunk ->
         chunk = take (Z.to_nat n) (drop (i * Z.to_nat n) iterable)
         /\ (1 <= length chunk <= Z.to_nat n)%nat
         /\ ((Datatypes.S i < length chunks)%nat ->
             length chunk = Z.to_nat n).
Proof.
  intros Hn. rewrite (batch_positive iterable n Hn).
  eexists. split; [done|]. rewrite length_fmap, length_seq. split; [done|].
  intros i chunk Hi.
  apply list_lookup_fmap_Some in Hi as (j & -> & Hj).
  apply lookup_seq in Hj as [-> Hlt]. simpl. split; [done|].
  rewrite length_take, length_drop.
  pose proof (chunk_count_tight (length iterable) (Z.to_nat n) i) as Hthis.
  split; [lia|]. intros Hnext.
  pose proof (chunk_count_tight (length iterable) (Z.to_nat n) (Datatypes.S i))
    as Hsucc.
  simpl in Hsucc. lia.
Qed.

(** X22 (data URL header).  A string that starts with the prefix and has
    a comma is cut after its first comma: a header without comma, a comma
    and a payload give the payload, whatever commas the payload has.  A
    string that starts with the prefix and has no comma raises
    [IndexError]. *)
Theorem strip_header_data_url (prefix : string) :
  (forall header payload,
      String.prefix prefix header = true ->
      ~ In ","%char (String.list_ascii_of_string header) ->
      strip_header prefix (String.append header (String ","%char payload)) =
      Ok payload)
  /\ (forall s,
        String.prefix prefix s = true ->
        ~ In ","%char (String.list_ascii_of_string s) ->
        strip_header prefix s = Raise IndexError).
Proof.
  split.
  - intros header payload Hpre Hno. unfold strip_header.
    rewrite (prefix_append _ _ _ Hpre).
    by rewrite (split_first_comma_header _ _ Hno).
  - intros s Hpre Hno. unfold strip_header.
    by rewrite Hpre, (split_first_comma_none _ Hno).
Qed.

Section prepare_properties.
Context {Bytes Image Audio : Type}.
Variable b64decode : string -> result Bytes.
Variable image_open : Bytes -> result Image.
Variable image_mode : Image -> string.
Variable convert_rgb : Image -> result Image.
Variable sf_read : Bytes -> result Audio.

(** X23 (one result per input, in order).  [prepare_images] on a list
    returns exactly when every string of the list loads, and then returns
    the loaded images one per string and in the order of the strings,
    with [return_list] true; on a bare string it returns the one loaded
    image with [return_list] false.  The same holds for [prepare_audio]. *)
Theorem prepare_in_order :
  (forall l out flag,
      prepare_images b64decode image_open image_mode convert_rgb (StrList l) =
        Ok (out, flag) <->
      flag = true
      /\ Forall2
           (fun s img =>
              load_image b64decode image_open image_mode convert_rgb s = Ok img)
           l out)
  /\ (forall s out flag,
        prepare_images b64decode image_open image_mode convert_rgb (OneStr s) =
          Ok (out, flag) <->
        flag = false
        /\ exists img,
             out = [img]
             /\ load_image b64decode image_open image_mode convert_rgb s = Ok img)
  /\ (forall l out flag,
        prepare_audio b64decode sf_read (StrList l) = Ok (out, flag) <->
        flag = true
        /\ Forall2 (fun s a => load_audio b64decode sf_read s = Ok a) l out)
  /\ (forall s out flag,
        prepare_audio b64decode sf_read (OneStr s) = Ok (out, flag) <->
        flag = false
        /\ exists a,
             out = [a] /\ load_audio b64decode sf_read s = Ok a).
Proof.
  assert (Hlist : forall (A : Type) (load : string -> result A) l out
                    (flag0 flag : bool),
             rbind (load_loop load [] l) (fun loaded => Ok (loaded, flag0)) =
               Ok (out, flag) <->
             flag = flag0 /\ Forall2 (fun s a => load s = Ok a) l out).
  { intros A load l out flag0 flag. rewrite rbind_Ok. split.
    - intros (loaded & Hloop & [= <- <-]). split; [done|].
      by apply load_loop_Ok in Hloop as (loaded' & -> & Hall).
    - intros [-> Hall]. exists out. split; [|done].
      apply load_loop_Ok. by exists out. }
  assert (Hone : forall (A : Type) (load : string -> result A) s (out : list A),
             Forall2 (fun s a => load s = Ok a) [s] out <->
             exists a, out = [a] /\ load s = Ok a).
  { intros A load s out. split.
    - intros Hall.
      apply Forall2_cons_inv_l in Hall as (a & rest & Ha & Hnil & ->).
      apply Forall2_nil_inv_l in Hnil as ->. by exists a.
    - intros (a & -> & Ha). by repeat constructor. }
  split; [|split; [|split]].
  - intros l out flag. apply Hlist.
  - intros s out flag. split.
    + intros Hrun. apply (Hlist _ _ [s] out false flag) in Hrun as [-> Hall].
      split; [done|]. by apply Hone.
    + intros [-> Hex]. apply (Hlist _ _ [s] out false false).
      split; [done|]. by apply Hone.
  - intros l out flag. apply Hlist.
  - intros s out flag. split.
    + intros Hrun. apply (Hlist _ _ [s] out false flag) in Hrun as [-> Hall].
      split; [done|]. by apply Hone.
    + intros [-> Hex]. apply (Hlist _ _ [s] out false false).
      split; [done|]. by apply Hone.
Qed.

(** X24 (the first failure ends the call).  When the first [i] strings of
    the list load and the next one raises, [prepare_images] raises that
    exception and returns nothing, whatever the later strings are; the
    same holds for [prepare_audio]. *)
Theorem prepare_first_failure (l : list string) (i : nat) (s : string)
    (e : exn) :
  l !! i = Some s ->
  (forall loaded,
      Forall2
        (fun s img =>
           load_image b64decode image_open image_mode convert_rgb s = Ok img)
        (take i l) loaded ->
      load_image b64decode image_open image_mode convert_rgb s = Raise e ->
      prepare_images b64decode image_open image_mode convert_rgb (StrList l) =
      Raise e)
  /\ (forall loaded,
        Forall2 (fun s a => load_audio b64decode sf_read s = Ok a)
          (take i l) loaded ->
        load_audio b64decode sf_read s = Raise e ->
        prepare_audio b64decode sf_read (StrList l) = Raise e).
Proof.
  intros Hi. split; intros loaded Hall Hs.
  - unfold prepare_images.
    by rewrite (load_loop_Raise _ l [] i s e loaded Hall Hi Hs).
  - unfold prepare_audio.
    by rewrite (load_loop_Raise _ l [] i s e loaded Hall Hi Hs).
Qed.

(** X25 (every image comes back in RGB).  Provided a conversion to RGB
    that returns yields an image of mode ["RGB"], every image
    [prepare_images] returns has mode ["RGB"]. *)
Theorem prepare_images_all_rgb (images : str_or_list) (out : list Image)
    (flag : bool) :
  (forall img img', convert_rgb img = Ok img' -> image_mode img' = "RGB") ->
  prepare_images b64decode image_open image_mode convert_rgb images =
    Ok (out, flag) ->
  Forall (fun img => image_mode img = "RGB") out.
Proof.
  intros Hconv Hrun.
  assert (Hload : forall s img,
             load_image b64decode image_open image_mode convert_rgb s = Ok img ->
             image_mode img = "RGB").
  { intros s img. unfold load_image. rewrite !rbind_Ok.
    intros (s' & _ & Hrest). apply rbind_Ok in Hrest as (bytes & _ & Hrest).
    apply rbind_Ok in Hrest as (image & _ & Hrest).
    destruct (decide (image_mode image <> "RGB")) as [|Hrgb].
    - by apply (Hconv image).
    - injection Hrest as <-. by apply dec_stable. }
  assert (Hall : exists l,
             Forall2
               (fun s img =>
                  load_image b64decode image_open image_mode convert_rgb s = Ok img)
               l out).
  { unfold prepare_images in Hrun.
    destruct images as [s|l]; apply rbind_Ok in Hrun as (loaded & Hloop & [= <- <-]);
      apply load_loop_Ok in Hloop as (loaded' & -> & Hall); eauto. }
  destruct Hall as [l Hall]. clear Hrun.
  induction Hall as [|s img l out Hs Hall IH]; constructor;
    [by apply (Hload s) | done].
Qed.
End prepare_properties.
End utils_properties.

(** ** Properties of [blip2.py] *)

Section blip2_properties.
Import Utils Blip2.
Context {Image Text Config : Type}.
Variable generate_captions : list Image -> Text -> Config -> option (list string).
Variable strip : string -> string.

(** X26 (captions grouped per image).  When generation returns [k]
    predictions per image, [k >= 1], for a non-empty list of images, the
    captioning returns one group per image, in the order of the images:
    group [i] holds the stripped predictions [i * k] to [i * k + k - 1],
    and the groups put end to end are the stripped predictions. *)
Theorem captions_grouped_per_image (image : list Image) (text : Text)
    (config : Config) (preds : list string) (k : nat) :
  image <> [] ->
  generate_captions image text config = Some preds ->
  length preds = (k * length image)%nat ->
  (1 <= k)%nat ->
  exists groups,
    conditional_image_captioning generate_captions strip image text config =
      Returned groups
    /\ length groups = length image
    /\ concat groups = strip <$> preds
    /\ forall i group,
         groups !! i = Some group ->
         group = strip <$> take k (drop (i * k) preds) /\ length group = k.
Proof.
  intros Himg Hgen Hlen Hk.
  assert (Hm : (1 <= length image)%nat) by (destruct image; [done | simpl; lia]).
  assert (Hdiv : (length (strip <$> preds) / length image)%nat = k).
  { rewrite length_fmap, Hlen. apply Nat.div_mul. lia. }
  assert (Hcount : ((length (strip <$> preds) + k - 1) / k)%nat = length image).
  { rewrite length_fmap, Hlen.
    replace (k * length image + k - 1)%nat
      with (length image * k + (k - 1))%nat by lia.
    rewrite Nat.div_add_l by lia. rewrite Nat.div_small by lia. lia. }
  unfold conditional_image_captioning. rewrite Hgen. simpl.
  destruct (decide (length image = 0%nat)); [lia|].
  rewrite Hdiv, (batch_positive _ (Z.of_nat k)) by lia.
  rewrite Nat2Z.id, Hcount.
  eexists. split; [done|]. rewrite length_fmap, length_seq. split; [done|]. split.
  - rewrite concat_chunks. apply take_ge. rewrite length_fmap. lia.
  - intros i group Hi.
    apply list_lookup_fmap_Some in Hi as (j & -> & Hj).
    apply lookup_seq in Hj as [-> Hlt]. simpl.
    rewrite <- fmap_drop, <- fmap_take. split; [done|].
    rewrite length_fmap, length_take, length_drop. nia.
Qed.

(** X27 (captioning on bad counts).  When generation returns for an empty
    list of images, the captioning raises [ZeroDivisionError].  When it
    returns fewer predictions than there are images, the chunk size is
    zero and the captioning raises [ValueError]. *)
Theorem captioning_count_errors (image : list Image) (text : Text)
    (config : Config) (preds : list string) :
  generate_captions image text config = Some preds ->
  (image = [] ->
   conditional_image_captioning generate_captions strip image text config =
   Raised ZeroDivisionError)
  /\ (image <> [] ->
      (length preds < length image)%nat ->
      conditional_image_captioning generate_captions strip image text config =
      Raised ValueError).
Proof.
  intros Hgen. unfold conditional_image_captioning. rewrite Hgen. simpl. split.
  - by intros ->.
  - intros Himg Hfew.
    destruct (decide (length image = 0%nat)) as [Hz|_];
      [by destruct image|].
    rewrite length_fmap, Nat.div_small by done. done.
Qed.
End blip2_properties.

(** ** Device selection *)

(** X28 (device selection).  [_load_model] selects CUDA exactly when CUDA
    is reported available, the trial operation on it returns, and
    [NO_CUDA] is not set; an exception of the trial operation is
    swallowed and the CPU is selected. *)
Theorem device_is_cuda_iff (available : bool) (probe : result unit)
    (no_cuda : bool) :
  select_device available probe no_cuda = cuda <->
  available = true /\ probe = Ok tt /\ no_cuda = false.
Proof.
  unfold select_device, is_cuda_available.
  destruct available, probe as [[]|e], no_cuda; simpl; split;
    try done; intros (? & ? & ?); done.
Qed.

(** ** The further properties at concrete inputs *)

Module MoreInstances.
Import OrderedDict Fixtures MoreFixtures.

Ltac decided :=
  unfold wf, keys;
  match goal with
  | |- ?P => apply (@bool_decide_unpack P _); vm_compute; exact I
  end.

Lemma cache_get_absent_witness :
  cache_get "z" {| cache := [("a", 1)]; maxsize := 2 |} =
  (Ok None, {| cache := [("a", 1)]; maxsize := 2 |}).
Proof.
  apply (cache_get_absent "z" {| cache := [("a", 1)]; maxsize := 2 |}).
  decided.
Defined.

Lemma cache_get_refreshes_witness :
  cache_get "a" {| cache := [("a", 1); ("b", 2)]; maxsize := 2 |} =
  (Ok (Some 1), {| cache := [("b", 2); ("a", 1)]; maxsize := 2 |}).
Proof.
  refine (proj1 (cache_get_refreshes "a" 1
                   {| cache := [("a", 1); ("b", 2)]; maxsize := 2 |} _ _));
    [decided | reflexivity].
Defined.

Lemma cache_set_then_get_witness :
  cache_get "c" {| cache := [("b", 2); ("c", 3)]; maxsize := 2 |} =
  (Ok (Some 3), {| cache := [("b", 2); ("c", 3)]; maxsize := 2 |}).
Proof.
  apply (cache_set_then_get "c" 3
           {| cache := [("a", 1); ("b", 2)]; maxsize := 2 |});
    [decided | reflexivity].
Defined.

Lemma cache_set_overwrites_witness :
  cache_set "a" 9 {| cache := [("a", 1); ("b", 2)]; maxsize := 2 |} =
  (Ok tt, {| cache := [("b", 2); ("a", 9)]; maxsize := 2 |}).
Proof.
  refine (proj1 (cache_set_overwrites "a" 9 1
                   {| cache := [("a", 1); ("b", 2)]; maxsize := 2 |} _ _));
    [decided | reflexivity].
Defined.

Lemma cache_set_absent_key_witness :
  cache_set "c" 3 {| cache := [("a", 1); ("b", 2)]; maxsize := 2 |} =
    (Ok tt, {| cache := [("b", 2); ("c", 3)]; maxsize := 2 |})
  /\ cache_set "c" 3 {| cache := [("a", 1)]; maxsize := 2 |} =
       (Ok tt, {| cache := [("a", 1); ("c", 3)]; maxsize := 2 |}).
Proof.
  split.
  - apply (proj1 (proj2 (cache_set_absent_key "c" 3
                           {| cache := [("a", 1); ("b", 2)]; maxsize := 2 |}
                           ltac:(decided))) ("a", 1) [("b", 2)]);
      [reflexivity | simpl; lia].
  - apply (proj1 (cache_set_absent_key "c" 3
                    {| cache := [("a", 1)]; maxsize := 2 |} ltac:(decided))).
    simpl. lia.
Defined.

Lemma fill_beyond_capacity_witness :
  set_each [("a", 1); ("b", 2); ("c", 3); ("d", 4)] (LRUCache_init 2) =
  {| cache := [("c", 3); ("d", 4)]; maxsize := 2 |}.
Proof.
  apply (fill_beyond_capacity 2 [("a", 1); ("b", 2); ("c", 3); ("d", 4)]);
    [lia | decided].
Defined.

Lemma no_capacity_store_witness :
  cache_set "a" 1 (exec_ops [OpSet "b" 2; OpGet "b"] (LRUCache_init (-3))) =
  (Raise KeyError, exec_ops [OpSet "b" 2; OpGet "b"] (LRUCache_init (-3))).
Proof.
  refine (proj2 (no_capacity_store (-3) [OpSet "b" 2; OpGet "b"] "a" 1 _)).
  lia.
Defined.

Lemma recent_writes_retained_witness :
  exists v,
    get "a" (rev [("a", 1); ("b", 2); ("a", 3)]) = Some v
    /\ get "a" (cache (set_each [("a", 1); ("b", 2); ("a", 3)]
                         {| cache := [("x", 7); ("y", 8)]; maxsize := 3 |})) =
       Some v.
Proof.
  apply (recent_writes_retained [("a", 1); ("b", 2); ("a", 3)]
           {| cache := [("x", 7); ("y", 8)]; maxsize := 3 |} "a");
    [decided | simpl; lia | decided].
Defined.

Lemma inference_once_on_misses_witness :
  inference_log
    (batched_embedding (fun t => t) text_rows ["a"; "b"; "c"; "b"] text_endpoint).2 =
  [["b"; "c"; "b"]].
Proof.
  apply (inference_once_on_misses (fun t => t) text_rows
           ["a"; "b"; "c"; "b"] text_endpoint).
  decided.
Defined.

Lemma batch_keeps_cache_sound_witness :
  wf (cache (lru (batched_embedding (fun t => t) no_rows ["a"; "b"]
                    text_endpoint).2)).
Proof.
  refine (proj1 (batch_keeps_cache_sound (fun t => t) no_rows ["a"; "b"]
                   text_endpoint _ _));
    [decided | simpl; lia].
Defined.

Lemma batch_cache_effect_witness :
  exists out w',
    batched_embedding (fun t => t) text_rows ["a"; "bb"; "a"] text_endpoint =
      (Ok out, w')
    /\ lru w' =
       set_each [("bb", [2])]
         (exec_ops [OpGet "a"; OpGet "bb"; OpGet "a"] (lru text_endpoint)).
Proof.
  apply (batch_cache_effect (fun t => t) text_rows ["a"; "bb"; "a"]
           text_endpoint [[2]]);
    [decided | simpl; lia | intros _; reflexivity | simpl; lia].
Defined.

Lemma repeated_batch_runs_no_inference_witness :
  exists out w',
    batched_embedding (fun t => t) text_rows ["a"; "bb"] text_endpoint =
      (Ok out, w')
    /\ exists w'',
         batched_embedding (fun t => t) text_rows ["a"; "bb"] w' =
           (Ok ((fun x => get x (cache (lru w'))) <$> ["a"; "bb"]), w'')
         /\ inference_log w'' = inference_log w'.
Proof.
  destruct (repeated_batch_runs_no_inference (fun t => t) text_rows
              ["a"; "bb"] text_endpoint [[2]])
    as (out & w' & Hrun & _ & Hagain);
    [decided | simpl; lia | intros _; reflexivity | simpl; lia |].
  exists out, w'. split; [exact Hrun | exact Hagain].
Defined.

Lemma batch_is_map_of_embed_witness :
  exists w',
    batched_embedding (fun t => t) text_rows ["a"; "bb"; "a"] text_endpoint =
    (Ok [Some [1]; Some [2]; Some [1]], w').
Proof.
  apply (batch_is_map_of_embed (fun t => t) text_rows embed_length
           ["a"; "bb"; "a"] text_endpoint);
    [decided | simpl; lia | reflexivity |].
  intros x value _. simpl.
  destruct (decide ("a" = x)) as [<-|]; [|discriminate].
  intros [= <-]. reflexivity.
Defined.

Lemma fully_cached_batch_witness :
  exists w',
    batched_embedding (fun t => t) failing ["a"; "a"] text_endpoint =
      (Ok [Some [1]; Some [1]], w')
    /\ inference_log w' = [].
Proof.
  destruct (fully_cached_batch (fun t => t) failing ["a"; "a"] text_endpoint)
    as (w' & Hrun & Hlog & _); [decided | |].
  - intros x Hx. apply elem_of_cons in Hx as [->|Hx]; [decided|].
    apply list_elem_of_singleton in Hx as ->. decided.
  - exists w'. split; [exact Hrun | exact Hlog].
Defined.

Lemma classification_stops_at_failure_witness :
  exists self',
    batched_zero_shot_image_classification text_rows digest failing count_scores
      [7%nat] ["a"]
      {| image_side := image_endpoint; text_side := text_endpoint |} =
    (Raise UpstreamError, self')
    /\ text_side self' = text_endpoint
    /\ cache (lru (image_side self')) ≡ₚ [(digest 65, [65])].
Proof.
  apply (proj1 (classification_stops_at_failure text_rows digest failing
                  count_scores [7%nat] ["a"]
                  {| image_side := image_endpoint; text_side := text_endpoint |}
                  UpstreamError ltac:(decided) ltac:(decided)));
    [discriminate | reflexivity].
Defined.

Lemma classification_from_caches_witness :
  exists self',
    batched_zero_shot_image_classification failing digest failing count_scores
      [65%nat; 65%nat] ["a"]
      {| image_side := image_endpoint; text_side := text_endpoint |} =
    (Ok 2%nat, self')
    /\ inference_log (image_side self') = []
    /\ inference_log (text_side self') = [].
Proof.
  apply (classification_from_caches failing digest failing count_scores
           [65%nat; 65%nat] ["a"]
           {| image_side := image_endpoint; text_side := text_endpoint |});
    [decided | decided | |].
  - intros img Himg. apply elem_of_cons in Himg as [->|Himg]; [decided|].
    apply list_elem_of_singleton in Himg as ->. decided.
  - intros c Hc. apply list_elem_of_singleton in Hc as ->. decided.
Defined.

Lemma batch_concat_witness :
  exists chunks,
    Utils.batch [1; 2; 3; 4; 5; 6; 7] 3 = Some chunks
    /\ concat chunks = [1; 2; 3; 4; 5; 6; 7].
Proof. apply (batch_concat [1; 2; 3; 4; 5; 6; 7] 3). lia. Defined.

Lemma batch_chunks_witness :
  exists chunks,
    Utils.batch [1; 2; 3; 4; 5; 6; 7] 3 = Some chunks
    /\ length chunks = 3%nat.
Proof.
  destruct (batch_chunks [1; 2; 3; 4; 5; 6; 7] 3) as (chunks & Hrun & Hlen & _);
    [lia|].
  exists chunks. split; [exact Hrun | exact Hlen].
Defined.

Lemma strip_header_data_url_witness :
  Utils.strip_header "data:image" "data:image/png;base64,iVBOR,w0KGgo" =
    Ok "iVBOR,w0KGgo"
  /\ Utils.strip_header "data:image" "data:image/png;base64" = Raise IndexError.
Proof.
  split.
  - apply (proj1 (strip_header_data_url "data:image")
             "data:image/png;base64" "iVBOR,w0KGgo"); [reflexivity|].
    vm_compute. intuition discriminate.
  - apply (proj2 (strip_header_data_url "data:image") "data:image/png;base64");
      [reflexivity|].
    vm_compute. intuition discriminate.
Defined.

Lemma prepare_in_order_witness :
  Utils.prepare_images decode_nonempty open_grey mode_of to_rgb
    (Utils.StrList ["data:image/png;base64,AA"; "BB"]) =
  Ok ([("AA", "RGB"); ("BB", "RGB")], true).
Proof.
  apply (proj1 (prepare_in_order decode_nonempty open_grey mode_of to_rgb
                  read_length)).
  split; [reflexivity|]. repeat constructor.
Defined.

Lemma prepare_first_failure_witness :
  Utils.prepare_images decode_nonempty open_grey mode_of to_rgb
    (Utils.StrList ["AA"; ""; "data:image"]) = Raise UpstreamError.
Proof.
  apply (proj1 (prepare_first_failure decode_nonempty open_grey mode_of to_rgb
                  read_length ["AA"; ""; "data:image"] 1 "" UpstreamError
                  eq_refl) [("AA", "RGB")]);
    [repeat constructor | reflexivity].
Defined.

Lemma prepare_images_all_rgb_witness :
  Forall (fun img => mode_of img = "RGB") [("AA", "RGB"); ("BB", "RGB")].
Proof.
  apply (prepare_images_all_rgb decode_nonempty open_grey mode_of to_rgb
           (Utils.StrList ["data:image/png;base64,AA"; "BB"])
           [("AA", "RGB"); ("BB", "RGB")] true).
  - intros img img' [= <-]. reflexivity.
  - reflexivity.
Defined.

Lemma captions_grouped_per_image_witness :
  exists groups,
    Blip2.conditional_image_captioning four_captions keep [10%nat; 20%nat] tt tt =
      Blip2.Returned groups
    /\ length groups = 2%nat
    /\ concat groups = ["a cat"; "a dog"; "a tree"; "a car"].
Proof.
  destruct (captions_grouped_per_image four_captions keep [10%nat; 20%nat] tt tt
              ["a cat"; "a dog"; "a tree"; "a car"] 2)
    as (groups & Hrun & Hlen & Hcat & _);
    [discriminate | reflexivity | reflexivity | lia |].
  exists groups. split; [exact Hrun|]. split; [exact Hlen | exact Hcat].
Defined.

Lemma captioning_count_errors_witness :
  Blip2.conditional_image_captioning four_captions keep [] tt tt =
    Blip2.Raised Blip2.ZeroDivisionError
  /\ Blip2.conditional_image_captioning four_captions keep
       [1%nat; 2%nat; 3%nat; 4%nat; 5%nat] tt tt =
     Blip2.Raised Blip2.ValueError.
Proof.
  split.
  - apply (proj1 (captioning_count_errors four_captions keep [] tt tt
                    ["a cat"; "a dog"; "a tree"; "a car"] eq_refl)).
    reflexivity.
  - apply (proj2 (captioning_count_errors four_captions keep
                    [1%nat; 2%nat; 3%nat; 4%nat; 5%nat] tt tt
                    ["a cat"; "a dog"; "a tree"; "a car"] eq_refl));
      [discriminate | simpl; lia].
Defined.
End MoreInstances.
